(** * Watson: stack VM, lexer tables and reflective bridge

    A shallow embedding of the Go sources
      - pkg/vm/execution.go   (package vm: Top, Feed, FeedMulti, feedX, push/pop helpers)
      - the lexer source      (package lexer: opTableA, opTableS, readOp, showOp, Lexer.Next)
      - the bridge source     (package types: ToValue, ToValueByReflection, addFields)

    Go values of type [*types.Value] are pointers; a Go [map] is a reference
    to a mutable table.  Both live in an explicit store ([types.Heap]), and
    every function that allocates or mutates is written in a state monad
    whose state survives a returned [error], as a Go receiver does. *)

From Stdlib Require Import ZArith Lia List Bool.
From Stdlib Require Import Strings.Byte Strings.Ascii Strings.String.
From stdpp Require Import base option list gmap strings fin_maps.
Import ListNotations.

#[local] Set Warnings "-register-all".

Local Open Scope Z_scope.

(** ** Results of a Go call *)

(** The [error] values the three packages return. *)
Inductive error : Type :=
| ErrStackEmpty               (* vm: "stack is empty" *)
| ErrMaximumStackSizeExceeded (* vm: "maximum stack size exceeded" *)
| ErrTypeMismatch             (* vm: "type mismatch" *)
| EOF.                        (* io.EOF *)

(** Run-time panics of the Go runtime and the explicit [panic] calls. *)
Inductive panic : Type :=
| NegativeShift        (* shift count negative at run time *)
| IndexOutOfRange      (* slice index out of range *)
| NilDereference       (* field access or map write through nil *)
| UnknownOp            (* lexer.showOp: "unknown Op" *)
| NotAStruct           (* reflect: NumField of non-struct Value *)
| CallUnexported       (* reflect: Call on a Value obtained through an unexported field *)
| CantConvert.         (* types.ToValueByReflection: "can't convert ..." *)

(** [Ok a]: normal return; [Err e]: a non-nil [error] is returned;
    [Panic p]: the goroutine panics; [OutOfFuel]: the recursion bound of the
    model was reached (a Go call that has not returned yet). *)
Inductive Res (A : Type) : Type :=
| Ok (a : A)
| Err (e : error)
| Panic (p : panic)
| OutOfFuel.
Arguments Ok {A} a.
Arguments Err {A} e.
Arguments Panic {A} p.
Arguments OutOfFuel {A}.

(** A computation over a mutable state [S].  The state is threaded through
    failures too: what was written before an early [return err] stays
    written. *)
Definition M (S A : Type) : Type := S -> Res A * S.

Definition ret {S A} (a : A) : M S A := fun s => (Ok a, s).

Definition bind {S A B} (m : M S A) (k : A -> M S B) : M S B :=
  fun s =>
    match m s with
    | (Ok a, s') => k a s'
    | (Err e, s') => (Err e, s')
    | (Panic p, s') => (Panic p, s')
    | (OutOfFuel, s') => (OutOfFuel, s')
    end.

Definition fail {S A} (e : error) : M S A := fun s => (Err e, s).
Definition throw {S A} (p : panic) : M S A := fun s => (Panic p, s).
Definition diverge {S A} : M S A := fun s => (OutOfFuel, s).

Declare Scope go_scope.
Delimit Scope go_scope with go.
Notation "'do' x <- m ; k" := (bind m (fun x => k))
  (at level 10, x name, m at level 100, k at level 200,
   format "'[v' 'do'  x  <-  m ; '/' k ']'") : go_scope.

(** [for _, x := range l { body x }] *)
Fixpoint forEach {S A} (body : A -> M S unit) (l : list A) : M S unit :=
  match l with
  | [] => ret tt
  | x :: l' => (do _ <- body x; forEach body l')%go
  end.

(** Collecting loop: [for _, x := range l { out = append(out, f x) }] *)
Fixpoint mapEach {S A B} (f : A -> M S B) (l : list A) : M S (list B) :=
  match l with
  | [] => ret []
  | x :: l' => (do y <- f x; do ys <- mapEach f l'; ret (y :: ys))%go
  end.

(** ** Machine integers *)

(** Two's-complement wrap-around of [int64] arithmetic. *)
Definition wrap64 (z : Z) : Z := (z + 2^63) mod 2^64 - 2^63.

(** [uint64(n)] for an [int64] n. *)
Definition uint64 (n : Z) : Z := n mod 2^64.

(** [byte(n)] for an [int64] n. *)
Definition byte_of_int64 (n : Z) : byte :=
  match Byte.of_N (Z.to_N (n mod 256)) with
  | Some b => b
  | None => x00
  end.

Definition int64_range (n : Z) : Prop := - 2^63 <= n < 2^63.

(** [a << b] on int64 with a signed count: panics on a negative count,
    otherwise the infinitely precise shift truncated to 64 bits. *)
Definition shl64 {S} (a b : Z) : M S Z :=
  if b <? 0 then throw NegativeShift else ret (wrap64 (Z.shiftl a b)).

(** [a >> b] on int64 with a signed count: panics on a negative count,
    otherwise the arithmetic (sign-extending) shift. *)
Definition shr64 {S} (a b : Z) : M S Z :=
  if b <? 0 then throw NegativeShift else ret (Z.shiftr a b).

(** [math.Float64frombits] and [math.Float64bits]: a [float64] is its
    IEEE-754 binary64 bit pattern, an unsigned 64-bit number; both functions
    reinterpret the same 64 bits. *)
Definition float64 : Type := Z.
Definition Float64frombits (b : Z) : float64 := b.
Definition Float64bits (f : float64) : Z := f.

(** [math.Inf(1)], [math.NaN()] and unary minus on float64 (sign bit flip). *)
Definition Inf1 : float64 := 0x7FF0000000000000.
Definition NaN : float64 := 0x7FF8000000000001.
Definition fneg (x : float64) : float64 := Z.lxor x (2^63).

#[global] Instance byte_eq_dec : EqDecision byte := Byte.byte_eq_dec.

(** [strings.Split(s, ",")] *)
Fixpoint splitComma (s : string) : list string :=
  match s with
  | EmptyString => [EmptyString]
  | String c s' =>
      if Ascii.eqb c ","%char then EmptyString :: splitComma s'
      else match splitComma s' with
           | x :: xs => String c x :: xs
           | [] => [String c EmptyString]
           end
  end.

(** ** Package types: the value model *)

Module types.

(** Addresses of [Value] structs and of map tables in the store. *)
Definition addr : Type := nat.
Definition mapref : Type := nat.

(** A Go pointer [*Value]: [None] is [nil]. *)
Definition pointer : Type := option addr.

Inductive Kind : Type :=
| Int | Uint | Float | String | Object | Array | Bool | Nil.

#[global] Instance Kind_eq_dec : EqDecision Kind.
Proof. solve_decision. Defined.

(** Modelled from the spec: the struct [Value] is declared outside the given
    sources; section 3 of the specification gives it as a tagged union of
    eight variants with these payloads.  [Object] holds a Go map, that is a
    reference to a table from string keys to [*Value]; [Array] holds a slice
    of [*Value]; [String] a byte slice.  Slices are kept by value: sharing
    of backing arrays between slices is not represented. *)
Inductive Value : Type :=
| IntValue (n : Z)
| UintValue (n : Z)
| FloatValue (x : float64)
| StringValue (s : list byte)
| ObjectValue (m : mapref)
| ArrayValue (a : list pointer)
| BoolValue (b : bool)
| NilValue.

Definition kind (v : Value) : Kind :=
  match v with
  | IntValue _ => Int
  | UintValue _ => Uint
  | FloatValue _ => Float
  | StringValue _ => String
  | ObjectValue _ => Object
  | ArrayValue _ => Array
  | BoolValue _ => Bool
  | NilValue => Nil
  end.

(** The store: allocated [Value] structs and allocated map tables, each
    addressed by its allocation index. *)
Record Heap : Type := mkHeap {
  cells : list Value;
  maps : list (gmap string pointer)
}.

Definition emptyHeap : Heap := mkHeap [] [].

(** [&Value{...}] *)
Definition alloc (v : Value) : M Heap pointer :=
  fun h => (Ok (Some (length (cells h))), mkHeap (cells h ++ [v]) (maps h)).

(** [map[string]*Value{}] / [make(map[string]*Value)] *)
Definition newMap : M Heap mapref :=
  fun h => (Ok (length (maps h)), mkHeap (cells h) (maps h ++ [∅])).

(** [*p]: reading through a pointer; nil panics. *)
Definition load (p : pointer) : M Heap Value :=
  fun h =>
    match p with
    | None => (Panic NilDereference, h)
    | Some a =>
        match cells h !! a with
        | Some v => (Ok v, h)
        | None => (Panic NilDereference, h)
        end
    end.

(** Reading the table behind a map reference. *)
Definition readMap (m : mapref) : M Heap (gmap string pointer) :=
  fun h =>
    match maps h !! m with
    | Some t => (Ok t, h)
    | None => (Panic NilDereference, h)
    end.

(** [m[k] = p]: in-place update of the table every holder of [m] sees. *)
Definition mapStore (m : mapref) (k : string) (p : pointer) : M Heap unit :=
  fun h =>
    match maps h !! m with
    | Some t => (Ok tt, mkHeap (cells h) (<[m := <[k := p]> t]> (maps h)))
    | None => (Panic NilDereference, h)
    end.

(** Modelled from the spec: the constructors [NewXValue] are declared outside
    the given sources; section 4.1 gives [new_X(payload)] for each kind.
    Each returns a pointer to a freshly allocated struct. *)
Definition NewIntValue (n : Z) : M Heap pointer := alloc (IntValue n).
Definition NewUintValue (n : Z) : M Heap pointer := alloc (UintValue n).
Definition NewFloatValue (x : float64) : M Heap pointer := alloc (FloatValue x).
Definition NewStringValue (s : list byte) : M Heap pointer := alloc (StringValue s).
Definition NewObjectValue (m : mapref) : M Heap pointer := alloc (ObjectValue m).
Definition NewArrayValue (a : list pointer) : M Heap pointer := alloc (ArrayValue a).
Definition NewBoolValue (b : bool) : M Heap pointer := alloc (BoolValue b).
Definition NewNilValue : M Heap pointer := alloc NilValue.

(** Modelled from the spec: [Value.DeepCopy] is declared outside the given
    sources; section 4.1 gives [deep_copy()] as cloning containers
    recursively, other kinds being value-copied.  The clone of an Object is
    a new table holding clones of the entries, the clone of an Array a new
    slice of clones.  [fuel] bounds the nesting depth that is followed. *)
Fixpoint DeepCopy (fuel : nat) (p : pointer) : M Heap pointer :=
  match fuel with
  | O => diverge
  | S fuel' =>
      (do v <- load p;
       match v with
       | ObjectValue m =>
           do t <- readMap m;
           do m' <- newMap;
           do _ <- forEach (fun kv : string * pointer =>
                              do c <- DeepCopy fuel' (snd kv);
                              mapStore m' (fst kv) c)
                           (map_to_list t);
           alloc (ObjectValue m')
       | ArrayValue a =>
           do a' <- mapEach (DeepCopy fuel') a;
           alloc (ArrayValue a')
       | _ => alloc v
       end)%go
  end.

(** ** Package types: the reflective bridge (ToValue) *)

(** *** Host values

    What the bridge can observe of a Go value, through a type switch, a type
    assertion and package reflect.  [Refl] holds the two observations that
    belong to a [reflect.Value] rather than to the value it wraps. *)
Record Refl : Type := mkRefl {
  CanInterface : bool;   (* false when reached through an unexported field *)
  IsZero : bool          (* reflect's report that the value is its type's zero value *)
}.

Inductive IntType : Type := TInt | TInt8 | TInt16 | TInt32 | TInt64.
Inductive UintType : Type := TUint | TUint8 | TUint16 | TUint32 | TUint64.
Inductive FloatType : Type := TFloat32 | TFloat64.

(** A value of a basic kind.  Integers carry [int64(v)] / [uint64(v)], floats
    carry [float64(v)]: the widening conversions are exact. *)
Inductive Scalar : Type :=
| GoBool (b : bool)
| GoInt (t : IntType) (n : Z)
| GoUint (t : UintType) (n : Z)
| GoFloat (t : FloatType) (x : float64)
| GoString (s : string).

(** [reflect.StructField]: the field name and the value of its [watson] tag
    key when it has one. *)
Record StructField : Type := mkField {
  Name : string;
  Tag : option string
}.

(** A host value.  [Basic]: the dynamic type is one of the predeclared types
    bool, int.., uint.., float.., string, which have no methods.  Every
    other constructor stands for a value of another type and carries the
    [MarshalWatson] method of that type when it implements [Marshaler].
    A slot of interface type stands for the value it holds, [NilInterface]
    when it holds none. *)
Inductive Host : Type :=
| NilInterface (r : Refl)
| Basic (r : Refl) (x : Scalar)
| Defined (r : Refl) (mw : option (M Heap pointer)) (x : Scalar)
| ArrayOf (r : Refl) (mw : option (M Heap pointer)) (elems : list Host)
| SliceOf (r : Refl) (mw : option (M Heap pointer)) (elems : option (list Host))
| StructOf (r : Refl) (mw : option (M Heap pointer))
           (fields : list (StructField * Host))
| PtrTo (r : Refl) (mw : option (M Heap pointer)) (elem : option Host)
| MapOf (r : Refl) (mw : option (M Heap pointer))
        (entries : option (list (string * Host)))
| Other (r : Refl) (mw : option (M Heap pointer)) (typ : string).

Definition refl (v : Host) : Refl :=
  match v with
  | NilInterface r | Basic r _ | Defined r _ _ | ArrayOf r _ _ | SliceOf r _ _
  | StructOf r _ _ | PtrTo r _ _ | MapOf r _ _ | Other r _ _ => r
  end.

(** The type assertion [v.(Marshaler)]: the method when the dynamic type
    has it. *)
Definition Marshaler (v : Host) : option (M Heap pointer) :=
  match v with
  | NilInterface _ | Basic _ _ => None
  | Defined _ mw _ | ArrayOf _ mw _ | SliceOf _ mw _ | StructOf _ mw _
  | PtrTo _ mw _ | MapOf _ mw _ | Other _ mw _ => mw
  end.

(** Modelled from the spec: [isMarshaler] is declared outside the given
    sources; section 4.5 speaks of a value declaring a marshal capability. *)
Definition isMarshaler (v : Host) : bool :=
  match Marshaler v with Some _ => true | None => false end.

(** *** Field tags *)

(** Modelled from the spec: [parseTag] and the methods of [tag] are declared
    outside the given sources; section 4.5 and the comment of [ToValue] give
    a tag the shape [name,flag1,...,flagN], the flags [omitempty] and
    [inline], and the name [-] for a field that is always omitted.  A field
    without a tag name keeps its field name as key. *)
Record tag : Type := mkTag {
  f : StructField;
  name : string;
  flags : list string
}.

Definition parseTag (field : StructField) : tag :=
  match Tag field with
  | None => mkTag field EmptyString []
  | Some s =>
      match splitComma s with
      | n :: fl => mkTag field n fl
      | [] => mkTag field EmptyString []
      end
  end.

Definition ShouldAlwaysOmit (t : tag) : bool := bool_decide (name t = "-"%string).
Definition Key (t : tag) : string :=
  if bool_decide (name t = EmptyString) then Name (f t) else name t.
Definition OmitEmpty (t : tag) : bool := bool_decide ("omitempty"%string ∈ flags t).
Definition Inline (t : tag) : bool := bool_decide ("inline"%string ∈ flags t).

(** *** Conversion *)

(** [marshalerToValueByReflection]: [v.MethodByName("MarshalWatson").Call];
    reflect refuses the call on a Value reached through an unexported
    field. *)
Definition marshalerToValueByReflection (v : Host) : M Heap pointer :=
  match Marshaler v with
  | Some mw => if CanInterface (refl v) then mw else throw CallUnexported
  | None => throw NilDereference
  end.

(** The body of [ToValue], with the function it falls back on as a
    parameter: nil test, type switch on the predeclared types, type
    assertion to [Marshaler], then reflection. *)
Definition ToValueWith (byReflection : Host -> M Heap pointer) (v : Host)
  : M Heap pointer :=
  match v with
  | NilInterface _ => NewNilValue
  | Basic _ (GoBool b) => NewBoolValue b
  | Basic _ (GoInt _ n) => NewIntValue n
  | Basic _ (GoUint _ n) => NewUintValue n
  | Basic _ (GoString s) => NewStringValue (list_byte_of_string s)
  | Basic _ (GoFloat _ x) => NewFloatValue x
  | _ =>
      match Marshaler v with
      | Some marshaler => marshaler
      | None => byReflection v
      end
  end.

(** The recurring test
    [if elem.CanInterface() { ToValue(elem.Interface()) } else { ToValueByReflection(elem) }]. *)
Definition elemToValue (byReflection : Host -> M Heap pointer) (elem : Host)
  : M Heap pointer :=
  if CanInterface (refl elem) then ToValueWith byReflection elem
  else byReflection elem.

(** The loop of [sliceOrArrayToValueByReflection]. *)
Definition sliceOrArrayLoop (byReflection : Host -> M Heap pointer)
    (elems : list Host) : M Heap pointer :=
  (do arr <- mapEach (elemToValue byReflection) elems;
   NewArrayValue arr)%go.

(** The loop of [reflectMapToValue]. *)
Definition mapLoop (byReflection : Host -> M Heap pointer)
    (entries : list (string * Host)) : M Heap pointer :=
  (do obj <- newMap;
   do _ <- forEach (fun kv : string * Host =>
                      do p <- elemToValue byReflection (snd kv);
                      mapStore obj (fst kv) p) entries;
   NewObjectValue obj)%go.

(** One iteration of the loop of [addFields]. *)
Definition addField (byReflection : Host -> M Heap pointer)
    (inlineFields : Host -> M Heap unit) (obj : mapref)
    (fe : StructField * Host) : M Heap unit :=
  let field := fst fe in
  let elem := snd fe in
  let tag := parseTag field in
  if ShouldAlwaysOmit tag then ret tt
  else
    let name := Key tag in
    if OmitEmpty tag && IsZero (refl elem) then ret tt
    else if Inline tag then inlineFields elem
    else (do p <- elemToValue byReflection elem; mapStore obj name p)%go.

Fixpoint ToValueByReflection (v : Host) : M Heap pointer :=
  if isMarshaler v then marshalerToValueByReflection v
  else
    match v with
    | Basic _ (GoInt _ n) | Defined _ _ (GoInt _ n) => NewIntValue n
    | Basic _ (GoUint _ n) | Defined _ _ (GoUint _ n) => NewUintValue n
    | Basic _ (GoFloat _ x) | Defined _ _ (GoFloat _ x) => NewFloatValue x
    | Basic _ (GoBool b) | Defined _ _ (GoBool b) => NewBoolValue b
    | Basic _ (GoString s) | Defined _ _ (GoString s) =>
        NewStringValue (list_byte_of_string s)
    | ArrayOf _ _ elems => sliceOrArrayLoop ToValueByReflection elems
    | StructOf _ _ fields =>
        (do obj <- newMap;
         do _ <- forEach (addField ToValueByReflection (addFields obj) obj) fields;
         NewObjectValue obj)%go
    | NilInterface _ | PtrTo _ _ None | MapOf _ _ None | SliceOf _ _ None =>
        NewNilValue
    | PtrTo _ _ (Some elem) => elemToValue ToValueByReflection elem
    | MapOf _ _ (Some entries) => mapLoop ToValueByReflection entries
    | SliceOf _ _ (Some elems) => sliceOrArrayLoop ToValueByReflection elems
    | Other _ _ _ => throw CantConvert
    end

with addFields (obj : mapref) (v : Host) : M Heap unit :=
  match v with
  | StructOf _ _ fields =>
      forEach (addField ToValueByReflection (addFields obj) obj) fields
  | _ => throw NotAStruct
  end.

Definition ToValue (v : Host) : M Heap pointer :=
  ToValueWith ToValueByReflection v.

Definition sliceOrArrayToValueByReflection (elems : list Host) : M Heap pointer :=
  sliceOrArrayLoop ToValueByReflection elems.

Definition reflectMapToValue (entries : list (string * Host)) : M Heap pointer :=
  mapLoop ToValueByReflection entries.

Definition reflectPtrToValue (elem : Host) : M Heap pointer :=
  elemToValue ToValueByReflection elem.

Definition structToValueByReflection (v : Host) : M Heap pointer :=
  (do obj <- newMap;
   do _ <- addFields obj v;
   NewObjectValue obj)%go.

End types.

(** ** Package vm: the stack machine (pkg/vm/execution.go) *)

Module vm.
Import types.

(** Modelled from the spec: the type [Op] is declared outside the given
    sources; it has the 23 opcodes that [Feed] dispatches on. *)
Inductive Op : Type :=
| Inew | Iinc | Ishl | Iadd | Ineg | Isht | Itof | Itou
| Finf | Fnan | Fneg
| Snew | Sadd
| Onew | Oadd
| Anew | Aadd
| Bnew | Bneg
| Nnew
| Gdup | Gpop | Gswp.

#[global] Instance Op_eq_dec : EqDecision Op.
Proof. solve_decision. Defined.

(** The struct [VM] as execution.go uses it: [vm.stack], a slice of
    [*types.Value] of fixed length, and [vm.sp], the index of the top. *)
Record VM : Type := mkVM {
  stack : list pointer;
  sp : Z
}.

(** What a method with receiver [vm *VM] can read and write. *)
Record State : Type := mkState {
  heap : Heap;
  machine : VM
}.

(** Modelled from the spec: [NewVM] is declared outside the given sources;
    section 4.2 gives a stack of fixed capacity C and sp starting at -1. *)
Definition NewVM (C : nat) : VM := mkVM (replicate C None) (-1).

(** A call into package types from a VM method. *)
Definition inHeap {A} (m : M Heap A) : M State A :=
  fun s => let (r, h') := m (heap s) in (r, mkState h' (machine s)).

Definition Top : M State pointer :=
  fun s =>
    let vm := machine s in
    if sp vm <? 0 then (Err ErrStackEmpty, s)
    else match stack vm !! Z.to_nat (sp vm) with
         | Some p => (Ok p, s)
         | None => (Panic IndexOutOfRange, s)
         end.

Definition push (v : pointer) : M State unit :=
  fun s =>
    let vm := machine s in
    if Z.of_nat (length (stack vm)) - 1 <=? sp vm
    then (Err ErrMaximumStackSizeExceeded, s)
    else
      let sp' := sp vm + 1 in
      if sp' <? 0
      then (Panic IndexOutOfRange, mkState (heap s) (mkVM (stack vm) sp'))
      else (Ok tt, mkState (heap s)
                     (mkVM (<[Z.to_nat sp' := v]> (stack vm)) sp')).

Definition pushInt (val : Z) : M State unit :=
  (do p <- inHeap (NewIntValue val); push p)%go.
Definition pushUint (val : Z) : M State unit :=
  (do p <- inHeap (NewUintValue val); push p)%go.
Definition pushFloat (val : float64) : M State unit :=
  (do p <- inHeap (NewFloatValue val); push p)%go.
Definition pushString (val : list byte) : M State unit :=
  (do p <- inHeap (NewStringValue val); push p)%go.
Definition pushObject (val : mapref) : M State unit :=
  (do p <- inHeap (NewObjectValue val); push p)%go.
Definition pushArray (val : list pointer) : M State unit :=
  (do p <- inHeap (NewArrayValue val); push p)%go.
Definition pushBool (val : bool) : M State unit :=
  (do p <- inHeap (NewBoolValue val); push p)%go.
Definition pushNil : M State unit :=
  (do p <- inHeap NewNilValue; push p)%go.

Definition pop : M State pointer :=
  fun s =>
    let vm := machine s in
    if sp vm <? 0 then (Err ErrStackEmpty, s)
    else match stack vm !! Z.to_nat (sp vm) with
         | None => (Panic IndexOutOfRange, s)
         | Some top =>
             (Ok top, mkState (heap s)
                        (mkVM (<[Z.to_nat (sp vm) := None]> (stack vm))
                              (sp vm - 1)))
         end.

Definition popInt : M State Z :=
  (do v <- pop;
   do x <- inHeap (load v);
   match x with IntValue n => ret n | _ => fail ErrTypeMismatch end)%go.

Definition popFloat : M State float64 :=
  (do v <- pop;
   do x <- inHeap (load v);
   match x with FloatValue f => ret f | _ => fail ErrTypeMismatch end)%go.

Definition popString : M State (list byte) :=
  (do v <- pop;
   do x <- inHeap (load v);
   match x with StringValue s => ret s | _ => fail ErrTypeMismatch end)%go.

Definition popObject : M State mapref :=
  (do v <- pop;
   do x <- inHeap (load v);
   match x with ObjectValue m => ret m | _ => fail ErrTypeMismatch end)%go.

Definition popArray : M State (list pointer) :=
  (do v <- pop;
   do x <- inHeap (load v);
   match x with ArrayValue a => ret a | _ => fail ErrTypeMismatch end)%go.

Definition popBool : M State bool :=
  (do v <- pop;
   do x <- inHeap (load v);
   match x with BoolValue b => ret b | _ => fail ErrTypeMismatch end)%go.

Definition feedInew : M State unit := pushInt 0.

Definition feedIinc : M State unit :=
  (do v <- popInt; pushInt (wrap64 (v + 1)))%go.

Definition feedIshl : M State unit :=
  (do v <- popInt; pushInt (wrap64 (Z.shiftl v 1)))%go.

Definition feedIadd : M State unit :=
  (do b <- popInt; do a <- popInt; pushInt (wrap64 (a + b)))%go.

Definition feedIneg : M State unit :=
  (do v <- popInt; pushInt (wrap64 (- v)))%go.

Definition feedIsht : M State unit :=
  (do b <- popInt;
   do a <- popInt;
   if 0 <=? b
   then do r <- shl64 a b; pushInt r
   else do r <- shr64 a (wrap64 (- b)); pushInt r)%go.

Definition feedItof : M State unit :=
  (do n <- popInt; pushFloat (Float64frombits (uint64 n)))%go.

Definition feedItou : M State unit :=
  (do n <- popInt; pushUint (uint64 n))%go.

Definition feedFinf : M State unit := pushFloat Inf1.

Definition feedFnan : M State unit := pushFloat NaN.

Definition feedFneg : M State unit :=
  (do x <- popFloat; pushFloat (fneg x))%go.

Definition feedSnew : M State unit := pushString [].

Definition feedSadd : M State unit :=
  (do n <- popInt;
   do s <- popString;
   let t := s ++ [byte_of_int64 n] in
   pushString t)%go.

Definition feedOnew : M State unit :=
  (do m <- inHeap newMap; pushObject m)%go.

Definition feedOadd (fuel : nat) : M State unit :=
  (do v <- pop;
   do k <- popString;
   do o <- popObject;
   do c <- inHeap (DeepCopy fuel v);
   do _ <- inHeap (mapStore o (string_of_list_byte k) c);
   pushObject o)%go.

Definition feedAnew : M State unit := pushArray [].

Definition feedAadd (fuel : nat) : M State unit :=
  (do x <- pop;
   do a <- popArray;
   do c <- inHeap (DeepCopy fuel x);
   pushArray (a ++ [c]))%go.

Definition feedBnew : M State unit := pushBool false.

Definition feedBneg : M State unit :=
  (do v <- popBool; pushBool (negb v))%go.

Definition feedNnew : M State unit := pushNil.

Definition feedGdup (fuel : nat) : M State unit :=
  (do v <- pop;
   do _ <- push v;
   do c <- inHeap (DeepCopy fuel v);
   push c)%go.

Definition feedGpop : M State unit :=
  (do _ <- pop; ret tt)%go.

Definition feedGswp : M State unit :=
  (do a <- pop;
   do b <- pop;
   do _ <- push a;
   push b)%go.

(** [Feed]: [fuel] is the nesting depth [DeepCopy] may follow. *)
Definition Feed (fuel : nat) (op : Op) : M State unit :=
  match op with
  | Inew => feedInew
  | Iinc => feedIinc
  | Ishl => feedIshl
  | Iadd => feedIadd
  | Ineg => feedIneg
  | Isht => feedIsht
  | Itof => feedItof
  | Itou => feedItou
  | Finf => feedFinf
  | Fnan => feedFnan
  | Fneg => feedFneg
  | Snew => feedSnew
  | Sadd => feedSadd
  | Onew => feedOnew
  | Oadd => feedOadd fuel
  | Anew => feedAnew
  | Aadd => feedAadd fuel
  | Bnew => feedBnew
  | Bneg => feedBneg
  | Nnew => feedNnew
  | Gdup => feedGdup fuel
  | Gpop => feedGpop
  | Gswp => feedGswp
  end.

Definition FeedMulti (fuel : nat) (ops : list Op) : M State unit :=
  forEach (Feed fuel) ops.

End vm.

(** ** Package lexer: modes, opcode tables, Lexer.Next *)

#[global] Instance byte_countable : Countable byte :=
  inj_countable Byte.to_N Byte.of_N Byte.of_to_N.

Module lexer.
Import vm.

Definition Op_to_nat (op : Op) : nat :=
  match op with
  | Inew => 0 | Iinc => 1 | Ishl => 2 | Iadd => 3 | Ineg => 4 | Isht => 5
  | Itof => 6 | Itou => 7 | Finf => 8 | Fnan => 9 | Fneg => 10 | Snew => 11
  | Sadd => 12 | Onew => 13 | Oadd => 14 | Anew => 15 | Aadd => 16
  | Bnew => 17 | Bneg => 18 | Nnew => 19 | Gdup => 20 | Gpop => 21
  | Gswp => 22
  end%nat.

(** All opcodes, in declaration order. *)
Definition allOps : list Op :=
  [Inew; Iinc; Ishl; Iadd; Ineg; Isht; Itof; Itou; Finf; Fnan; Fneg; Snew;
   Sadd; Onew; Oadd; Anew; Aadd; Bnew; Bneg; Nnew; Gdup; Gpop; Gswp].

Definition Op_of_nat (n : nat) : option Op := allOps !! n.

Definition Op_of_to_nat (op : Op) : Op_of_nat (Op_to_nat op) = Some op :=
  match op with
  | Inew | Iinc | Ishl | Iadd | Ineg | Isht | Itof | Itou | Finf | Fnan
  | Fneg | Snew | Sadd | Onew | Oadd | Anew | Aadd | Bnew | Bneg | Nnew
  | Gdup | Gpop | Gswp => eq_refl
  end.

#[global] Instance Op_countable : Countable Op :=
  inj_countable Op_to_nat Op_of_nat Op_of_to_nat.

(** [type Mode int; const (A Mode = iota; S)] *)
Inductive Mode : Type := A | S.

(** [char(s)]: the first byte of a one-character string literal. *)
Definition char (s : string) : byte :=
  match list_byte_of_string s with
  | b :: _ => b
  | [] => x00
  end.

Definition opTableA : gmap byte Op :=
  list_to_map [
    (char "B", Inew);
    (char "u", Iinc);
    (char "b", Ishl);
    (char "a", Iadd);
    (char "A", Ineg);
    (char "e", Isht);
    (char "i", Itof);
    (char "q", Finf);
    (char "t", Fnan);
    (char "p", Fneg);
    (char "?", Snew);
    (char "!", Sadd);
    (char "~", Onew);
    (char "M", Oadd);
    (char "@", Anew);
    (char "s", Aadd);
    (char "z", Bnew);
    (char "o", Bneg);
    (char ".", Nnew);
    (char "*", Gdup);
    (char "#", Gpop);
    (char "%", Gswp)
  ].

Definition opTableS : gmap byte Op :=
  list_to_map [
    (char "S", Inew);
    (char "h", Iinc);
    (char "a", Ishl);
    (char "k", Iadd);
    (char "r", Ineg);
    (char "A", Isht);
    (char "z", Itof);
    (char "p", Finf);
    (char "b", Fnan);
    (char "u", Fneg);
    (char "$", Snew);
    (char "-", Sadd);
    (char "+", Onew);
    (char "g", Oadd);
    (char "v", Anew);
    (char "?", Aadd);
    (char "^", Bnew);
    (char "!", Bneg);
    (char "y", Nnew);
    (char "/", Gdup);
    (char "c", Gpop);
    (char ":", Gswp)
  ].

(** The loops of [init]: [for k, v := range table { reversed[v] = k }], run
    over the entries in the order [entries] lists them. *)
Definition reverseTable (entries : list (byte * Op)) : gmap Op byte :=
  foldl (fun reversed kv => <[snd kv := fst kv]> reversed) ∅ entries.

Definition reversedTableA : gmap Op byte := reverseTable (map_to_list opTableA).
Definition reversedTableS : gmap Op byte := reverseTable (map_to_list opTableS).

(** [readOp]: the result [(op, ok)] is [Some op] when [ok]. The mode [m] is
    a parameter of the function; its body reads [opTableA] only. *)
Definition readOp (m : Mode) (b : byte) : option Op := opTableA !! b.

Definition showOp {St} (m : Mode) (op : Op) : M St byte :=
  match reversedTableA !! op with
  | Some b => ret b
  | None => throw UnknownOp
  end.

(** [Lexer]: the reader [r], here the bytes it has still to deliver (each
    [Read] delivers one byte, or [io.EOF] when none is left), and the
    one-byte buffer [buf]. *)
Record Lexer : Type := mkLexer {
  r : list byte;
  buf : byte
}.

Definition NewLexer (input : list byte) : Lexer := mkLexer input x00.

(** The loop of [Next], by recursion on what the reader still holds. *)
Fixpoint nextLoop (input : list byte) (buf0 : byte) : Res Op * Lexer :=
  match input with
  | [] => (Err EOF, mkLexer [] buf0)
  | b :: rest =>
      match readOp A b with
      | Some op => (Ok op, mkLexer rest b)
      | None => nextLoop rest b
      end
  end.

Definition Next : M Lexer Op := fun l => nextLoop (r l) (buf l).

End lexer.

(** ** Values in the store: depth, structural equality, footprint *)

Module store.
Import types.

(** [subOn P Q h h']: every struct at an address in [P] and every table at
    a reference in [Q] that [h] holds is held unchanged by [h'].  Whatever
    lies outside [P] and [Q] may differ in [h'] in any way. *)
Definition subOn (P : addr -> Prop) (Q : mapref -> Prop) (h h' : Heap) : Prop :=
  (forall a v, P a -> cells h !! a = Some v -> cells h' !! a = Some v) /\
  (forall m t, Q m -> maps h !! m = Some t -> maps h' !! m = Some t).

(** [h'] keeps everything [h] holds. *)
Definition extends (h h' : Heap) : Prop :=
  subOn (fun _ => True) (fun _ => True) h h'.

(** Allocated by a computation that started in [h0]: not an address of
    [h0]. *)
Definition freshCell (h0 : Heap) (a : addr) : Prop := (length (cells h0) <= a)%nat.
Definition freshMap (h0 : Heap) (m : mapref) : Prop := (length (maps h0) <= m)%nat.

(** [finite n h p]: [p] points to a value whose containers nest less than
    [n] deep, all pointers in it leading to allocated structs. *)
Fixpoint finite (n : nat) (h : Heap) (p : pointer) : Prop :=
  match n with
  | O => False
  | S n' =>
      match p with
      | None => False
      | Some a =>
          match cells h !! a with
          | None => False
          | Some (ObjectValue m) =>
              exists t, maps h !! m = Some t /\
                        map_Forall (fun _ q => finite n' h q) t
          | Some (ArrayValue l) => Forall (finite n' h) l
          | Some _ => True
          end
      end
  end.

(** [equalIn n P Q h1 p1 h2 p2]: the value [p1] points to in [h1] and the
    value [p2] points to in [h2] have the same kind and the same payload,
    containers compared entry by entry, and the second value occupies only
    structs at addresses in [P] and tables at references in [Q]. *)
Fixpoint equalIn (n : nat) (P : addr -> Prop) (Q : mapref -> Prop)
    (h1 : Heap) (p1 : pointer) (h2 : Heap) (p2 : pointer) : Prop :=
  match n with
  | O => False
  | S n' =>
      match p1, p2 with
      | Some a1, Some a2 =>
          P a2 /\
          match cells h1 !! a1, cells h2 !! a2 with
          | Some (ObjectValue m1), Some (ObjectValue m2) =>
              Q m2 /\
              exists t1 t2,
                maps h1 !! m1 = Some t1 /\ maps h2 !! m2 = Some t2 /\
                forall k : string,
                  option_Forall2 (fun q1 q2 => equalIn n' P Q h1 q1 h2 q2)
                                 (t1 !! k) (t2 !! k)
          | Some (ArrayValue l1), Some (ArrayValue l2) =>
              Forall2 (fun q1 q2 => equalIn n' P Q h1 q1 h2 q2) l1 l2
          | Some (IntValue x), Some (IntValue y) => x = y
          | Some (UintValue x), Some (UintValue y) => x = y
          | Some (FloatValue x), Some (FloatValue y) => x = y
          | Some (StringValue x), Some (StringValue y) => x = y
          | Some (BoolValue x), Some (BoolValue y) => x = y
          | Some NilValue, Some NilValue => True
          | _, _ => False
          end
      | _, _ => False
      end
  end.

End store.

(** ** Host values by shape *)

Module hostshape.
Import types.

(** The Value a basic payload converts to. *)
Definition primitive (x : Scalar) : Value :=
  match x with
  | GoBool b => BoolValue b
  | GoInt _ n => IntValue n
  | GoUint _ n => UintValue n
  | GoFloat _ f => FloatValue f
  | GoString s => StringValue (list_byte_of_string s)
  end.

(** The basic payload of a host value of basic kind. *)
Definition scalarOf (v : Host) : option Scalar :=
  match v with
  | Basic _ x | Defined _ _ x => Some x
  | _ => None
  end.

Definition isNilInterface (v : Host) : bool :=
  match v with NilInterface _ => true | _ => false end.

End hostshape.

(** ** The field rules of the bridge, as the specification words them *)

Module fieldrules.
Import types.

(** The entries a record contributes to its Object: a field named [-] none;
    an [omitempty] field that is zero none; an [inline] field those of the
    record it holds; any other field one entry under its tag name, or its
    field name when it has no tag name. *)
Fixpoint promoted (v : Host) : list (string * Host) :=
  match v with
  | StructOf _ _ fields =>
      flat_map
        (fun fe : StructField * Host =>
           let t := parseTag (fst fe) in
           if bool_decide (name t = "-"%string) then []
           else if OmitEmpty t && IsZero (refl (snd fe)) then []
           else if Inline t then promoted (snd fe)
           else [(if bool_decide (name t = EmptyString) then Name (fst fe)
                  else name t, snd fe)])
        fields
  | _ => []
  end.

(** [v] is a record, and so is every [inline] field that is not omitted,
    at every level. *)
Fixpoint inlineRecords (v : Host) : bool :=
  match v with
  | StructOf _ _ fields =>
      forallb
        (fun fe : StructField * Host =>
           let t := parseTag (fst fe) in
           if bool_decide (name t = "-"%string) then true
           else if OmitEmpty t && IsZero (refl (snd fe)) then true
           else if Inline t then inlineRecords (snd fe)
           else true)
        fields
  | _ => false
  end.

(** Writing entries into the table [obj], one after the other. *)
Definition writeEntries (obj : mapref) (entries : list (string * Host))
  : M Heap unit :=
  forEach (fun kv : string * Host =>
             do p <- elemToValue ToValueByReflection (snd kv);
             mapStore obj (fst kv) p)%go
          entries.

End fieldrules.

(** ** Typed pops *)

Module typedpop.
Import types vm.

(** The first typed pop of each feed function of execution.go: the number
    of untyped pops that run before it, and the kind it requires.  [None]
    for a feed function without a typed pop. *)
Definition firstTypedPop (op : Op) : option (nat * Kind) :=
  match op with
  | Iinc | Ishl | Iadd | Ineg | Isht | Itof | Itou | Sadd => Some (0%nat, Int)
  | Fneg => Some (0%nat, Float)
  | Bneg => Some (0%nat, Bool)
  | Oadd => Some (1%nat, String)
  | Aadd => Some (1%nat, Array)
  | Inew | Finf | Fnan | Snew | Onew | Anew | Bnew | Nnew
  | Gdup | Gpop | Gswp => None
  end.

End typedpop.

(** ** Opcode sequences used as inputs *)

Module programs.
Import vm.

(** The opcodes that leave Int(1) below Int(-2^63): 1, then 1 << 63. *)
Definition shiftByMinInt64 : list Op :=
  [Inew; Iinc;
   Inew; Iinc;
   Inew; Iinc; Ishl; Iinc; Ishl; Iinc; Ishl; Iinc; Ishl; Iinc; Ishl; Iinc;
   Isht].

(** The state after [Onew; Snew; Inew; Iinc; Sadd; Anew; Inew; Aadd] on a
    new VM of capacity 4: an empty Object, the String of the one byte 1 and
    the Array [0]. *)
Definition oaddState : State :=
  Eval vm_compute in
    snd (FeedMulti 1 [Onew; Snew; Inew; Iinc; Sadd; Anew; Inew; Aadd]
           (mkState types.emptyHeap (NewVM 4))).

(** A record with a renamed field, an untagged field, a field named [-],
    an omitempty field holding zero, and an inline record. *)
Definition person : types.Host :=
  let r := types.mkRefl true false in
  types.StructOf r None [
    (types.mkField "Name" (Some "name"%string),
       types.Basic r (types.GoString "Taro"));
    (types.mkField "Age" None, types.Basic r (types.GoInt types.TInt 25));
    (types.mkField "Secret" (Some "-"%string),
       types.Basic r (types.GoInt types.TInt 1));
    (types.mkField "Opt" (Some "opt,omitempty"%string),
       types.Basic (types.mkRefl true true) (types.GoInt types.TInt 0));
    (types.mkField "Inner" (Some ",inline"%string),
       types.StructOf r None
         [(types.mkField "X" (Some "x"%string),
             types.Basic r (types.GoBool true))])
  ].

End programs.

(** ** Well-formed machine states *)

Module safety.
Import types vm.

(** A pointer that is not nil and leads to an allocated struct. *)
Definition validPtr (h : Heap) (p : pointer) : Prop :=
  exists a, p = Some a /\ (a < length (cells h))%nat.

(** A struct whose table reference and element pointers are allocated. *)
Definition closedValue (h : Heap) (v : Value) : Prop :=
  match v with
  | ObjectValue m => (m < length (maps h))%nat
  | ArrayValue l => Forall (validPtr h) l
  | _ => True
  end.

(** A store without dangling references. *)
Definition closed (h : Heap) : Prop :=
  Forall (closedValue h) (cells h) /\
  Forall (map_Forall (fun (_ : string) q => validPtr h q)) (maps h).

(** Nothing is ever freed. *)
Definition grows (h h' : Heap) : Prop :=
  (length (cells h) <= length (cells h'))%nat /\
  (length (maps h) <= length (maps h'))%nat.

(** A machine of capacity [C] as [Feed] leaves it: sp within bounds, the
    slots up to sp holding allocated values, the slots above sp nil, the
    store closed. *)
Definition wf (C : nat) (s : State) : Prop :=
  length (stack (machine s)) = C /\
  -1 <= sp (machine s) < Z.of_nat C /\
  (forall i : nat, Z.of_nat i <= sp (machine s) ->
     exists p, stack (machine s) !! i = Some p /\ validPtr (heap s) p) /\
  (forall i : nat, sp (machine s) < Z.of_nat i -> (i < C)%nat ->
     stack (machine s) !! i = Some None) /\
  closed (heap s).

(** The outcomes a well-formed machine can produce: a normal return, one of
    the three errors of package vm, the panic of a negative shift count, or
    a deep copy deeper than the fuel. *)
Definition benign {A} (r : Res A) : Prop :=
  match r with
  | Ok _ => True
  | Err e => e <> EOF
  | Panic p => p = NegativeShift
  | OutOfFuel => True
  end.

(** [hsafe m Q h]: run from the closed store [h], the store computation
    [m] ends in a benign outcome and a closed store that has lost nothing,
    and a normal return satisfies [Q]. *)
Definition hsafe {A} (m : M Heap A) (Q : A -> Heap -> Prop) (h : Heap) : Prop :=
  closed (snd (m h)) /\ grows h (snd (m h)) /\ benign (fst (m h)) /\
  match fst (m h) with Ok a => Q a (snd (m h)) | _ => True end.

(** [safe C m Q s]: run from [s], [m] ends in a benign outcome and a
    well-formed state, and a normal return satisfies [Q]. *)
Definition safe (C : nat) {A} (m : M State A) (Q : A -> State -> Prop)
    (s : State) : Prop :=
  wf C (snd (m s)) /\ benign (fst (m s)) /\
  match fst (m s) with
  | Ok a => grows (heap s) (heap (snd (m s))) /\ Q a (snd (m s))
  | _ => True
  end.

End safety.

(** ** Opcodes by what they do to the top of the stack *)

Module opspec.
Import types vm.

(** The value a constructor opcode pushes; [Onew], which also allocates a
    table, is not listed. *)
Definition initial (op : Op) : option Value :=
  match op with
  | Inew => Some (IntValue 0)
  | Finf => Some (FloatValue Inf1)
  | Fnan => Some (FloatValue NaN)
  | Snew => Some (StringValue [])
  | Anew => Some (ArrayValue [])
  | Bnew => Some (BoolValue false)
  | Nnew => Some NilValue
  | _ => None
  end.

(** The feed functions that begin with a pop. *)
Definition popsFirst (op : Op) : bool :=
  match op with
  | Inew | Finf | Fnan | Snew | Onew | Anew | Bnew | Nnew => false
  | _ => true
  end.

(** The result of the opcodes that replace the top value by a value
    computed from it alone, in arithmetic terms: successor, double and
    negation reduced to int64, the float with the other sign, the other
    boolean. *)
Definition unaryResult (op : Op) (x : Value) : option Value :=
  match op, x with
  | Iinc, IntValue n => Some (IntValue (wrap64 (n + 1)))
  | Ishl, IntValue n => Some (IntValue (wrap64 (2 * n)))
  | Ineg, IntValue n => Some (IntValue (wrap64 (- n)))
  | Fneg, FloatValue f =>
      Some (FloatValue (if f <? 2^63 then f + 2^63 else f - 2^63))
  | Bneg, BoolValue b => Some (BoolValue (negb b))
  | _, _ => None
  end.

(** The opcodes that write a binary numeral, most significant bit first:
    [Inew], then for every bit a doubling, and an increment when the bit
    is set. *)
Definition literal (bits : list bool) : list Op :=
  Inew :: flat_map (fun b : bool => if b then [Ishl; Iinc] else [Ishl]) bits.

(** The number a binary numeral stands for, most significant bit first. *)
Definition numeral (bits : list bool) : Z :=
  foldl (fun acc (b : bool) => 2 * acc + (if b then 1 else 0)) 0 bits.

(** The top of the stack is at index [k] and holds a pointer to [x]. *)
Definition topIs (s : State) (k : Z) (x : Value) : Prop :=
  sp (machine s) = k /\ 0 <= k /\
  exists a, stack (machine s) !! Z.to_nat k = Some (Some a) /\
            cells (heap s) !! a = Some x.

End opspec.

(** * Properties *)

(** ** The monad *)

Lemma bind_Ok {S A B} (m : M S A) (k : A -> M S B) s a s' :
  m s = (Ok a, s') -> bind m k s = k a s'.
Proof. intros H. unfold bind. now rewrite H. Qed.

Lemma bind_Err {S A B} (m : M S A) (k : A -> M S B) s e s' :
  m s = (Err e, s') -> bind m k s = (Err e, s').
Proof. intros H. unfold bind. now rewrite H. Qed.

Lemma bind_assoc {S A B C} (m : M S A) (k : A -> M S B) (k' : B -> M S C) s :
  bind (bind m k) k' s = bind m (fun a => bind (k a) k') s.
Proof. unfold bind. destruct (m s) as [[a| | |] s']; reflexivity. Qed.

Lemma forEach_app {S A} (body : A -> M S unit) (l1 l2 : list A) s :
  forEach body (l1 ++ l2) s = bind (forEach body l1) (fun _ => forEach body l2) s.
Proof.
  revert s. induction l1 as [|x l1 IH]; intros s; simpl.
  - reflexivity.
  - unfold bind in *.
    destruct (body x s) as [[u| | |] s']; auto.
Qed.

(** ** Machine integers *)

Lemma wrap64_range (z : Z) : int64_range (wrap64 z).
Proof.
  unfold int64_range, wrap64.
  pose proof (Z.mod_pos_bound (z + 2^63) (2^64) ltac:(lia)). lia.
Qed.

Lemma wrap64_id (z : Z) : int64_range z -> wrap64 z = z.
Proof.
  unfold int64_range, wrap64. intros H.
  rewrite Z.mod_small by lia. lia.
Qed.

Lemma uint64_range (n : Z) : 0 <= uint64 n < 2^64.
Proof. unfold uint64. apply Z.mod_pos_bound. lia. Qed.

(** [uint64(n)] is the unsigned reading of the two's-complement pattern of
    n: n itself when n >= 0, n + 2^64 when n < 0. *)
Lemma uint64_reinterpret (n : Z) :
  int64_range n -> uint64 n = if n <? 0 then n + 2^64 else n.
Proof.
  unfold int64_range, uint64. intros H.
  destruct (Z.ltb_spec n 0).
  - rewrite <- (Z.mod_small (n + 2^64) (2^64)) by lia.
    rewrite <- Z.add_mod_idemp_r by lia.
    rewrite Z.mod_same by lia. now rewrite Z.add_0_r.
  - apply Z.mod_small. lia.
Qed.

(** The low 64 bits of [uint64 n] are those of n. *)
Lemma uint64_testbit (n i : Z) :
  0 <= i < 64 -> Z.testbit (uint64 n) i = Z.testbit n i.
Proof.
  intros H. unfold uint64.
  change (2^64) with (2^64)%Z. rewrite Z.mod_pow2_bits_low by lia. reflexivity.
Qed.

(** ** Package vm: push, pop, Top *)

Section Stack.
Import types vm.

Variable h : Heap.
Variable st : list pointer.

Lemma pop_empty (n : Z) :
  n < 0 -> pop (mkState h (mkVM st n)) = (Err ErrStackEmpty, mkState h (mkVM st n)).
Proof.
  intros H. unfold pop. simpl.
  destruct (Z.ltb_spec n 0); [reflexivity | lia].
Qed.

Lemma Top_empty (n : Z) :
  n < 0 -> Top (mkState h (mkVM st n)) = (Err ErrStackEmpty, mkState h (mkVM st n)).
Proof.
  intros H. unfold Top. simpl.
  destruct (Z.ltb_spec n 0); [reflexivity | lia].
Qed.

Lemma pop_some (n : Z) (p : pointer) :
  0 <= n -> st !! Z.to_nat n = Some p ->
  pop (mkState h (mkVM st n))
  = (Ok p, mkState h (mkVM (<[Z.to_nat n := None]> st) (n - 1))).
Proof.
  intros Hn Hp. unfold pop. simpl.
  destruct (Z.ltb_spec n 0); [lia |]. now rewrite Hp.
Qed.

Lemma Top_some (n : Z) (p : pointer) :
  0 <= n -> st !! Z.to_nat n = Some p ->
  Top (mkState h (mkVM st n)) = (Ok p, mkState h (mkVM st n)).
Proof.
  intros Hn Hp. unfold Top. simpl.
  destruct (Z.ltb_spec n 0); [lia |]. now rewrite Hp.
Qed.

Lemma push_full (n : Z) (v : pointer) :
  Z.of_nat (length st) - 1 <= n ->
  push v (mkState h (mkVM st n))
  = (Err ErrMaximumStackSizeExceeded, mkState h (mkVM st n)).
Proof.
  intros H. unfold push. simpl.
  destruct (Z.leb_spec (Z.of_nat (length st) - 1) n); [reflexivity | lia].
Qed.

Lemma push_some (n : Z) (v : pointer) :
  -1 <= n -> n < Z.of_nat (length st) - 1 ->
  push v (mkState h (mkVM st n))
  = (Ok tt, mkState h (mkVM (<[Z.to_nat (n + 1) := v]> st) (n + 1))).
Proof.
  intros H1 H2. unfold push. simpl.
  destruct (Z.leb_spec (Z.of_nat (length st) - 1) n); [lia |].
  destruct (Z.ltb_spec (n + 1) 0); [lia | reflexivity].
Qed.

End Stack.

Lemma inHeap_run {A} (m : M types.Heap A) h vm0 :
  vm.inHeap m (vm.mkState h vm0)
  = (fst (m h), vm.mkState (snd (m h)) vm0).
Proof. unfold vm.inHeap. simpl. destruct (m h); reflexivity. Qed.

Lemma load_some h a v :
  types.cells h !! a = Some v -> types.load (Some a) h = (Ok v, h).
Proof. intros H. unfold types.load. now rewrite H. Qed.

(** A typed pop on a stack whose top holds [p], pointing to [x]. *)
Section TypedPop.
Import types vm.

Variable h : Heap.
Variable st : list pointer.
Variable n : Z.
Variable a : addr.
Variable x : Value.
Hypothesis Hn : 0 <= n.
Hypothesis Htop : st !! Z.to_nat n = Some (Some a).
Hypothesis Hx : cells h !! a = Some x.

Let after : State := mkState h (mkVM (<[Z.to_nat n := None]> st) (n - 1)).

Lemma pop_load {B} (k : Value -> M State B) :
  bind pop (fun v => bind (inHeap (load v)) k) (mkState h (mkVM st n))
  = k x after.
Proof.
  rewrite (bind_Ok _ _ _ _ _ (pop_some h st n _ Hn Htop)).
  unfold bind at 1. rewrite inHeap_run, (load_some _ _ _ Hx). reflexivity.
Qed.

Lemma popInt_run :
  popInt (mkState h (mkVM st n))
  = (match x with IntValue z => Ok z | _ => Err ErrTypeMismatch end, after).
Proof. unfold popInt. rewrite pop_load. destruct x; reflexivity. Qed.

Lemma popFloat_run :
  popFloat (mkState h (mkVM st n))
  = (match x with FloatValue z => Ok z | _ => Err ErrTypeMismatch end, after).
Proof. unfold popFloat. rewrite pop_load. destruct x; reflexivity. Qed.

Lemma popString_run :
  popString (mkState h (mkVM st n))
  = (match x with StringValue z => Ok z | _ => Err ErrTypeMismatch end, after).
Proof. unfold popString. rewrite pop_load. destruct x; reflexivity. Qed.

Lemma popObject_run :
  popObject (mkState h (mkVM st n))
  = (match x with ObjectValue z => Ok z | _ => Err ErrTypeMismatch end, after).
Proof. unfold popObject. rewrite pop_load. destruct x; reflexivity. Qed.

Lemma popArray_run :
  popArray (mkState h (mkVM st n))
  = (match x with ArrayValue z => Ok z | _ => Err ErrTypeMismatch end, after).
Proof. unfold popArray. rewrite pop_load. destruct x; reflexivity. Qed.

Lemma popBool_run :
  popBool (mkState h (mkVM st n))
  = (match x with BoolValue z => Ok z | _ => Err ErrTypeMismatch end, after).
Proof. unfold popBool. rewrite pop_load. destruct x; reflexivity. Qed.

End TypedPop.

(** Pushing a freshly allocated struct right after a pop at [n]. *)
Lemma push_alloc_after_pop h (st : list types.pointer) n (v : types.Value) :
  0 <= n -> (Z.to_nat n < length st)%nat ->
  bind (vm.inHeap (types.alloc v)) vm.push
       (vm.mkState h (vm.mkVM (<[Z.to_nat n := None]> st) (n - 1)))
  = (Ok tt,
     vm.mkState (types.mkHeap (types.cells h ++ [v]) (types.maps h))
       (vm.mkVM (<[Z.to_nat n := Some (length (types.cells h))]> st) n)).
Proof.
  intros Hn Hlt. unfold bind. rewrite inHeap_run. simpl.
  rewrite push_some by (rewrite ?length_insert; lia).
  replace (n - 1 + 1) with n by lia.
  now rewrite list_insert_insert_eq.
Qed.

(** ** Package vm: stack errors *)

Lemma NewVM_capacity (C : nat) :
  length (vm.stack (vm.NewVM C)) = C /\ vm.sp (vm.NewVM C) = -1.
Proof. unfold vm.NewVM. simpl. now rewrite length_replicate. Qed.

(** C9. For a VM whose stack slice has length C: pop and Top on an empty
    stack (sp < 0) return ErrStackEmpty and leave the VM as it was; push on
    a stack that already holds C values (the new sp would exceed C-1)
    returns ErrMaximumStackSizeExceeded and leaves the VM as it was; push on
    a stack holding at most C-1 values succeeds, increments sp and stores
    the value at the new top. *)
Theorem stack_errors (h : types.Heap) (st : list types.pointer) (n : Z) :
  let s := vm.mkState h (vm.mkVM st n) in
  let C := Z.of_nat (length st) in
  (n < 0 ->
     vm.pop s = (Err ErrStackEmpty, s) /\ vm.Top s = (Err ErrStackEmpty, s)) /\
  (forall v, n + 1 > C - 1 ->
     vm.push v s = (Err ErrMaximumStackSizeExceeded, s)) /\
  (forall v, -1 <= n -> n + 1 <= C - 1 ->
     let s' := vm.mkState h (vm.mkVM (<[Z.to_nat (n + 1) := v]> st) (n + 1)) in
     vm.push v s = (Ok tt, s') /\ vm.Top s' = (Ok v, s')).
Proof.
  intros s C. repeat split.
  - now apply pop_empty.
  - now apply Top_empty.
  - intros v H. apply push_full. lia.
  - apply push_some; lia.
  - apply Top_some; [lia |].
    apply list_lookup_insert_eq. lia.
Qed.

Lemma stack_errors_witness :
  vm.pop (vm.mkState types.emptyHeap (vm.NewVM 1))
  = (Err ErrStackEmpty, vm.mkState types.emptyHeap (vm.NewVM 1)) /\
  vm.push (Some 0%nat) (vm.mkState types.emptyHeap (vm.mkVM [Some 7%nat] 0))
  = (Err ErrMaximumStackSizeExceeded,
     vm.mkState types.emptyHeap (vm.mkVM [Some 7%nat] 0)) /\
  vm.push (Some 0%nat) (vm.mkState types.emptyHeap (vm.NewVM 1))
  = (Ok tt, vm.mkState types.emptyHeap (vm.mkVM [Some 0%nat] 0)).
Proof.
  split; [| split].
  - apply (stack_errors types.emptyHeap [None] (-1)). reflexivity.
  - apply (stack_errors types.emptyHeap [Some 7%nat] 0). reflexivity.
  - apply (stack_errors types.emptyHeap [None] (-1) ); simpl; lia.
Defined.

(** C10. On a stack that holds exactly one value, Gswp returns
    ErrStackEmpty and the stack is left empty: the value popped first is
    not put back (sp is -1 and its slot is nil). *)
Theorem feedGswp_single (fuel : nat) (h : types.Heap)
    (st : list types.pointer) (p : types.pointer) :
  st !! 0%nat = Some p ->
  let s' := vm.mkState h (vm.mkVM (<[0%nat := None]> st) (-1)) in
  vm.Feed fuel vm.Gswp (vm.mkState h (vm.mkVM st 0)) = (Err ErrStackEmpty, s') /\
  vm.Top s' = (Err ErrStackEmpty, s').
Proof.
  intros Hp s'. split.
  - unfold vm.Feed, vm.feedGswp.
    rewrite (bind_Ok _ _ _ _ _ (pop_some h st 0 p ltac:(lia) Hp)).
    apply bind_Err. apply pop_empty. lia.
  - apply Top_empty. lia.
Qed.

Lemma feedGswp_single_witness :
  vm.Feed 0 vm.Gswp (vm.mkState types.emptyHeap (vm.mkVM [Some 0%nat; None] 0))
  = (Err ErrStackEmpty, vm.mkState types.emptyHeap (vm.mkVM [None; None] (-1))).
Proof.
  apply (feedGswp_single 0 types.emptyHeap [Some 0%nat; None] (Some 0%nat)).
  reflexivity.
Defined.

(** ** Package vm: integer conversions *)

(** C5. With Int n on top of the stack, Itof replaces it by a Float whose
    bit pattern ([math.Float64bits]) is uint64(n), and Itou replaces it by
    Uint(uint64(n)); uint64(n) is the unsigned reading of the 64-bit
    two's-complement pattern of n (n for n >= 0, n + 2^64 for n < 0), so
    bits 0..63 are those of n. *)
Theorem Itof_Itou_preserve_bits (fuel : nat) (h : types.Heap)
    (st : list types.pointer) (sp0 : Z) (a : types.addr) (n : Z) :
  0 <= sp0 ->
  st !! Z.to_nat sp0 = Some (Some a) ->
  types.cells h !! a = Some (types.IntValue n) ->
  int64_range n ->
  let s := vm.mkState h (vm.mkVM st sp0) in
  let top' := Some (length (types.cells h)) in
  let vm' := vm.mkVM (<[Z.to_nat sp0 := top']> st) sp0 in
  (exists x : float64,
     let s' := vm.mkState
                 (types.mkHeap (types.cells h ++ [types.FloatValue x]) (types.maps h))
                 vm' in
     vm.Feed fuel vm.Itof s = (Ok tt, s') /\
     vm.Top s' = (Ok top', s') /\
     types.load top' (vm.heap s') = (Ok (types.FloatValue x), vm.heap s') /\
     Float64bits x = uint64 n) /\
  (let s' := vm.mkState
               (types.mkHeap (types.cells h ++ [types.UintValue (uint64 n)])
                             (types.maps h))
               vm' in
   vm.Feed fuel vm.Itou s = (Ok tt, s') /\
   vm.Top s' = (Ok top', s') /\
   types.load top' (vm.heap s')
   = (Ok (types.UintValue (uint64 n)), vm.heap s')) /\
  uint64 n = (if n <? 0 then n + 2^64 else n) /\
  (forall i, 0 <= i < 64 -> Z.testbit (uint64 n) i = Z.testbit n i).
Proof.
  intros Hsp Htop Ha Hn s top' vm'.
  assert (Hlt : (Z.to_nat sp0 < length st)%nat) by (eapply lookup_lt_Some; eauto).
  assert (Hnew : forall v, types.load top'
             (types.mkHeap (types.cells h ++ [v]) (types.maps h))
           = (Ok v, types.mkHeap (types.cells h ++ [v]) (types.maps h))).
  { intros v. apply load_some. simpl.
    rewrite lookup_app_r by lia. now rewrite Nat.sub_diag. }
  assert (Htop' : forall h', vm.Top (vm.mkState h' vm') = (Ok top', vm.mkState h' vm')).
  { intros h'. apply Top_some; [lia |]. now apply list_lookup_insert_eq. }
  split; [| split; [| split]].
  - exists (Float64frombits (uint64 n)). simpl. repeat split.
    + unfold vm.Feed, vm.feedItof.
      rewrite (bind_Ok _ _ _ _ _ (popInt_run h st sp0 a _ Hsp Htop Ha)).
      unfold vm.pushFloat, types.NewFloatValue.
      now apply push_alloc_after_pop.
    + apply Htop'.
    + apply Hnew.
  - simpl. repeat split.
    + unfold vm.Feed, vm.feedItou.
      rewrite (bind_Ok _ _ _ _ _ (popInt_run h st sp0 a _ Hsp Htop Ha)).
      unfold vm.pushUint, types.NewUintValue.
      now apply push_alloc_after_pop.
    + apply Htop'.
    + apply Hnew.
  - now apply uint64_reinterpret.
  - apply uint64_testbit.
Qed.

Lemma Itof_Itou_preserve_bits_witness :
  vm.Feed 0 vm.Itou
    (vm.mkState (types.mkHeap [types.IntValue (-1)] []) (vm.mkVM [Some 0%nat] 0))
  = (Ok tt,
     vm.mkState (types.mkHeap [types.IntValue (-1);
                               types.UintValue 18446744073709551615] [])
                (vm.mkVM [Some 1%nat] 0)).
Proof.
  refine (proj1 (proj1 (proj2
    (Itof_Itou_preserve_bits 0 (types.mkHeap [types.IntValue (-1)] [])
       [Some 0%nat] 0 0%nat (-1) _ _ _ _)))).
  - lia.
  - reflexivity.
  - reflexivity.
  - unfold int64_range. lia.
Defined.

(** ** Package vm: type mismatch *)

Section Mismatch.
Import types vm typedpop.

Lemma Top_after_pops (h : Heap) (st st' : list pointer) (n : Z) :
  length st' = length st ->
  (forall i : nat, Z.of_nat i < n -> st' !! i = st !! i) ->
  let s' := mkState h (mkVM st' (n - 1)) in
  (n = 0 -> Top s' = (Err ErrStackEmpty, s')) /\
  (forall q, 0 < n -> st !! Z.to_nat (n - 1) = Some q -> Top s' = (Ok q, s')).
Proof.
  intros Hlen Hbelow s'. split.
  - intros ->. apply Top_empty. lia.
  - intros q Hn Hq. apply Top_some; [lia |].
    rewrite Hbelow by lia. exact Hq.
Qed.

(** A typed pop that finds another kind fails after the pop. *)
Lemma typed_pop_fails (h : Heap) (st : list pointer) (n : Z) (a : addr)
    (x : Value) :
  0 <= n -> st !! Z.to_nat n = Some (Some a) -> cells h !! a = Some x ->
  let after := mkState h (mkVM (<[Z.to_nat n := None]> st) (n - 1)) in
  (kind x <> Int -> popInt (mkState h (mkVM st n)) = (Err ErrTypeMismatch, after)) /\
  (kind x <> Float -> popFloat (mkState h (mkVM st n)) = (Err ErrTypeMismatch, after)) /\
  (kind x <> String -> popString (mkState h (mkVM st n)) = (Err ErrTypeMismatch, after)) /\
  (kind x <> Array -> popArray (mkState h (mkVM st n)) = (Err ErrTypeMismatch, after)) /\
  (kind x <> Bool -> popBool (mkState h (mkVM st n)) = (Err ErrTypeMismatch, after)).
Proof.
  intros Hn Htop Hx after.
  rewrite (popInt_run h st n a x), (popFloat_run h st n a x),
    (popString_run h st n a x), (popArray_run h st n a x),
    (popBool_run h st n a x) by assumption.
  repeat split; intros Hk; destruct x; simpl in Hk; try reflexivity; congruence.
Qed.

(** C3 (amended). Let the first typed pop of an opcode require kind K
    and come after j untyped pops (j = 0 for Iinc, Ishl, Iadd, Ineg, Isht,
    Itof, Itou, Sadd, Fneg, Bneg; j = 1 for Oadd and Aadd).  If the stack
    holds more than j values and the value j places below the top has a kind
    other than K, Feed returns ErrTypeMismatch and nothing is put back: the
    store is unchanged, sp has moved down by j+1, the slots below are
    untouched, and Top afterwards returns the value that was j+1 places
    below the old top, or ErrStackEmpty when there was none. *)
Theorem typed_pop_mismatch (fuel : nat) (op : Op) (j : nat) (K : Kind)
    (h : Heap) (st : list pointer) (sp0 : Z) (a : addr) (x : Value) :
  firstTypedPop op = Some (j, K) ->
  Z.of_nat j <= sp0 < Z.of_nat (length st) ->
  st !! Z.to_nat (sp0 - Z.of_nat j) = Some (Some a) ->
  cells h !! a = Some x ->
  kind x <> K ->
  exists st',
    let s' := mkState h (mkVM st' (sp0 - Z.of_nat j - 1)) in
    Feed fuel op (mkState h (mkVM st sp0)) = (Err ErrTypeMismatch, s') /\
    length st' = length st /\
    (forall i : nat, Z.of_nat i < sp0 - Z.of_nat j -> st' !! i = st !! i) /\
    (sp0 - Z.of_nat j = 0 -> Top s' = (Err ErrStackEmpty, s')) /\
    (forall q, 0 < sp0 - Z.of_nat j ->
               st !! Z.to_nat (sp0 - Z.of_nat j - 1) = Some q ->
               Top s' = (Ok q, s')).
Proof.
  intros Hop Hsp Hslot Hx Hk.
  destruct j as [|[|j]].
  - (* the top itself is inspected *)
    change (Z.of_nat 0) with 0 in *. rewrite Z.sub_0_r in *.
    set (st' := <[Z.to_nat sp0 := None]> st).
    assert (Hlen : length st' = length st) by apply length_insert.
    assert (Hbelow : forall i : nat, Z.of_nat i < sp0 -> st' !! i = st !! i).
    { intros i Hi. apply list_lookup_insert_ne. lia. }
    destruct (Top_after_pops h st st' sp0 Hlen Hbelow) as [T1 T2].
    destruct (typed_pop_fails h st sp0 a x ltac:(lia) Hslot Hx)
      as (PI & PF & PS & PA & PB).
    exists st'. split; [| auto].
    destruct op; simpl in Hop; inversion Hop; subst K;
      unfold Feed, feedIinc, feedIshl, feedIadd, feedIneg, feedIsht, feedItof,
        feedItou, feedFneg, feedSadd, feedBneg;
      apply bind_Err; auto.
  - (* the top is popped untyped, the value below it is inspected *)
    change (Z.of_nat 1) with 1 in *.
    destruct (lookup_lt_is_Some_2 st (Z.to_nat sp0) ltac:(lia)) as [p Hp].
    set (st1 := <[Z.to_nat sp0 := None]> st).
    set (st' := <[Z.to_nat (sp0 - 1) := None]> st1).
    assert (Hlen : length st' = length st).
    { unfold st', st1. now rewrite !length_insert. }
    assert (Hbelow : forall i : nat, Z.of_nat i < sp0 - 1 -> st' !! i = st !! i).
    { intros i Hi. unfold st', st1. rewrite !list_lookup_insert_ne by lia.
      reflexivity. }
    destruct (Top_after_pops h st st' (sp0 - 1) Hlen Hbelow) as [T1 T2].
    assert (Hslot1 : st1 !! Z.to_nat (sp0 - 1) = Some (Some a)).
    { unfold st1. rewrite list_lookup_insert_ne by lia. exact Hslot. }
    destruct (typed_pop_fails h st1 (sp0 - 1) a x ltac:(lia) Hslot1 Hx)
      as (PI & PF & PS & PA & PB).
    exists st'. split; [| auto].
    destruct op; simpl in Hop; inversion Hop; subst K;
      unfold Feed, feedOadd, feedAadd;
      rewrite (bind_Ok _ _ _ _ _ (pop_some h st sp0 p ltac:(lia) Hp));
      apply bind_Err; auto.
  - destruct op; discriminate Hop.
Qed.

Lemma typed_pop_mismatch_witness :
  exists st',
    Feed 0 Oadd
      (mkState (mkHeap [IntValue 5; IntValue 0; IntValue 1] [])
               (mkVM [Some 0%nat; Some 1%nat; Some 2%nat] 2))
    = (Err ErrTypeMismatch,
       mkState (mkHeap [IntValue 5; IntValue 0; IntValue 1] []) (mkVM st' 0)) /\
    Top (mkState (mkHeap [IntValue 5; IntValue 0; IntValue 1] []) (mkVM st' 0))
    = (Ok (Some 0%nat),
       mkState (mkHeap [IntValue 5; IntValue 0; IntValue 1] []) (mkVM st' 0)).
Proof.
  destruct (typed_pop_mismatch 0 Oadd 1 String
              (mkHeap [IntValue 5; IntValue 0; IntValue 1] [])
              [Some 0%nat; Some 1%nat; Some 2%nat] 2 1%nat (IntValue 0))
    as (st' & HF & _ & _ & _ & HT).
  - reflexivity.
  - simpl. lia.
  - reflexivity.
  - reflexivity.
  - discriminate.
  - exists st'. split.
    + exact HF.
    + apply HT; [lia | reflexivity].
Defined.

(** C3 as stated does not hold: after Bnew on a new VM, Bool(false) is alone
    on the stack and Top returns it; Iinc then returns ErrTypeMismatch, and
    Top afterwards returns ErrStackEmpty, not the Bool. *)
Lemma type_mismatch_alters_top :
  let s := snd (Feed 0 Bnew (mkState emptyHeap (NewVM 2))) in
  cells (heap s) = [BoolValue false] /\
  fst (Top s) = Ok (Some 0%nat) /\
  fst (Feed 0 Iinc s) = Err ErrTypeMismatch /\
  fst (Top (snd (Feed 0 Iinc s))) = Err ErrStackEmpty /\
  fst (Top (snd (Feed 0 Iinc s))) <> fst (Top s).
Proof. repeat split. discriminate. Qed.

End Mismatch.

(** ** Package vm: Isht *)

Section Isht.
Import types vm programs.

Lemma shl64_overshift (a b : Z) : 64 <= b -> wrap64 (Z.shiftl a b) = 0.
Proof.
  intros Hb. unfold wrap64.
  rewrite Z.shiftl_mul_pow2 by lia.
  replace b with ((b - 64) + 64) by lia.
  rewrite Z.pow_add_r by lia.
  rewrite Z.mul_assoc, Z.add_comm, Z_mod_plus_full.
  reflexivity.
Qed.

Lemma shr64_overshift (a s : Z) :
  int64_range a -> 63 <= s -> Z.shiftr a s = if a <? 0 then -1 else 0.
Proof.
  unfold int64_range. intros Ha Hs.
  rewrite Z.shiftr_div_pow2 by lia.
  assert (Hp : 2^63 <= 2^s) by (apply Z.pow_le_mono_r; lia).
  destruct (Z.ltb_spec a 0).
  - symmetry. apply (Z.div_unique_pos a (2^s) (-1) (a + 2^s)); lia.
  - apply Z.div_small. lia.
Qed.

(** Isht on Int a below Int b, for every count b except the least int64:
    both are popped and Int(a << b) is pushed for b >= 0, Int(a >> -b) for
    b < 0; a count of 64 or more gives 0, a count of -63 or less gives the
    sign of a. *)
Lemma feedIsht_in_range (fuel : nat) (h : Heap) (st : list pointer) (sp0 : Z)
    (pa pb : addr) (a b : Z) :
  1 <= sp0 ->
  st !! Z.to_nat sp0 = Some (Some pb) ->
  st !! Z.to_nat (sp0 - 1) = Some (Some pa) ->
  cells h !! pb = Some (IntValue b) ->
  cells h !! pa = Some (IntValue a) ->
  int64_range a -> int64_range b -> b <> - 2^63 ->
  let r := if 0 <=? b then wrap64 (Z.shiftl a b) else Z.shiftr a (- b) in
  Feed fuel Isht (mkState h (mkVM st sp0))
  = (Ok tt,
     mkState (mkHeap (cells h ++ [IntValue r]) (maps h))
       (mkVM (<[Z.to_nat (sp0 - 1) := Some (length (cells h))]>
                (<[Z.to_nat sp0 := None]> st))
             (sp0 - 1))) /\
  (64 <= b -> r = 0) /\
  (b <= -63 -> r = if a <? 0 then -1 else 0).
Proof.
  intros Hsp Hb Ha Hcb Hca Ra Rb Hmin r. split; [| split].
  - unfold Feed, feedIsht.
    rewrite (bind_Ok _ _ _ _ _ (popInt_run h st sp0 pb _ ltac:(lia) Hb Hcb)).
    assert (Ha' : <[Z.to_nat sp0 := None]> st !! Z.to_nat (sp0 - 1) = Some (Some pa)).
    { rewrite list_lookup_insert_ne by lia. exact Ha. }
    rewrite (bind_Ok _ _ _ _ _
               (popInt_run h _ (sp0 - 1) pa _ ltac:(lia) Ha' Hca)).
    assert (Hlt : (Z.to_nat (sp0 - 1) < length (<[Z.to_nat sp0 := None]> st))%nat)
      by (eapply lookup_lt_Some; eauto).
    unfold r. destruct (Z.leb_spec 0 b).
    + unfold shl64. destruct (Z.ltb_spec b 0); [lia |].
      unfold bind at 1, ret. unfold pushInt, NewIntValue.
      apply push_alloc_after_pop; [lia | exact Hlt].
    + rewrite (wrap64_id (- b)) by (unfold int64_range in *; lia).
      unfold shr64. destruct (Z.ltb_spec (- b) 0); [lia |].
      unfold bind at 1, ret. unfold pushInt, NewIntValue.
      apply push_alloc_after_pop; [lia | exact Hlt].
  - intros H64. unfold r. destruct (Z.leb_spec 0 b); [| lia].
    now apply shl64_overshift.
  - intros H63. unfold r. destruct (Z.leb_spec 0 b); [lia |].
    apply shr64_overshift; [exact Ra | lia].
Qed.

(** With the least int64 as count, [-b] wraps around to b itself and the
    right shift is given a negative count. *)
Lemma feedIsht_min_int64 (fuel : nat) (h : Heap) (st : list pointer) (sp0 : Z)
    (pa pb : addr) (a : Z) :
  1 <= sp0 ->
  st !! Z.to_nat sp0 = Some (Some pb) ->
  st !! Z.to_nat (sp0 - 1) = Some (Some pa) ->
  cells h !! pb = Some (IntValue (- 2^63)) ->
  cells h !! pa = Some (IntValue a) ->
  fst (Feed fuel Isht (mkState h (mkVM st sp0))) = Panic NegativeShift.
Proof.
  intros Hsp Hb Ha Hcb Hca.
  unfold Feed, feedIsht.
  rewrite (bind_Ok _ _ _ _ _ (popInt_run h st sp0 pb _ ltac:(lia) Hb Hcb)).
  assert (Ha' : <[Z.to_nat sp0 := None]> st !! Z.to_nat (sp0 - 1) = Some (Some pa)).
  { rewrite list_lookup_insert_ne by lia. exact Ha. }
  rewrite (bind_Ok _ _ _ _ _
             (popInt_run h _ (sp0 - 1) pa _ ltac:(lia) Ha' Hca)).
  reflexivity.
Qed.

(** C4 at its failing input. The opcodes above run without error on a new
    VM and leave Int(1) below Int(-2^63); Isht then panics with a negative
    shift count, where the specification has Int(1 >> 2^63) = Int(0)
    pushed. *)
Theorem feedIsht_min_int64_panics :
  let s0 := mkState emptyHeap (NewVM 1024) in
  let s := snd (FeedMulti 0 shiftByMinInt64 s0) in
  fst (FeedMulti 0 shiftByMinInt64 s0) = Ok tt /\
  sp (machine s) = 1 /\
  (exists pa pb,
     stack (machine s) !! 0%nat = Some (Some pa) /\
     stack (machine s) !! 1%nat = Some (Some pb) /\
     cells (heap s) !! pa = Some (IntValue 1) /\
     cells (heap s) !! pb = Some (IntValue (- 2^63))) /\
  fst (Feed 0 Isht s) = Panic NegativeShift.
Proof.
  vm_compute. repeat split.
  exists 1%nat, 16%nat. repeat split.
Qed.

End Isht.

(** ** Package lexer *)

Section Lexer.
Import vm lexer.

(** [Next] skips the bytes that [opTableA] does not hold and returns the
    opcode of the first byte it holds. *)
Lemma Next_skips (junk : list byte) (b : byte) (rest : list byte) (op : Op)
    (buf0 : byte) :
  Forall (fun c => opTableA !! c = None) junk ->
  opTableA !! b = Some op ->
  Next (mkLexer (junk ++ b :: rest) buf0) = (Ok op, mkLexer rest b).
Proof.
  intros Hjunk Hb. unfold Next. cbn [r buf]. revert buf0.
  induction Hjunk as [|c junk Hc _ IH]; intros buf0; cbn [nextLoop app].
  - unfold readOp. now rewrite Hb.
  - unfold readOp at 1. rewrite Hc. apply IH.
Qed.

Lemma Next_EOF (junk : list byte) (buf0 : byte) :
  Forall (fun c => opTableA !! c = None) junk ->
  fst (Next (mkLexer junk buf0)) = Err EOF.
Proof.
  intros Hjunk. unfold Next. cbn [r buf]. revert buf0.
  induction Hjunk as [|c junk Hc _ IH]; intros buf0; cbn [nextLoop].
  - reflexivity.
  - unfold readOp at 1. rewrite Hc. apply IH.
Qed.

(** C1 at its failing input. [readOp] reads [opTableA] whatever the mode:
    for the byte '$', which [opTableS] maps to Snew and [opTableA] does not
    hold, [readOp S] reports no opcode, and [Next] skips the byte and
    reports io.EOF. *)
Theorem readOp_ignores_mode :
  (forall (m : Mode) (b : byte), readOp m b = opTableA !! b) /\
  opTableS !! char "$" = Some Snew /\
  opTableA !! char "$" = None /\
  readOp S (char "$") = None /\
  Next (NewLexer [char "$"]) = (Err EOF, mkLexer [] (char "$")).
Proof. repeat split; vm_compute; reflexivity. Qed.

(** Two entries of a list with pairwise distinct second components that
    share the second component are the same entry. *)
Lemma NoDup_snd_inj {X Y} (l : list (X * Y)) (x1 x2 : X) (y : Y) :
  NoDup (l.*2) -> (x1, y) ∈ l -> (x2, y) ∈ l -> x1 = x2.
Proof.
  induction l as [|[x0 y0] l IH]; simpl; intros Hnd H1 H2.
  - inversion H1.
  - apply NoDup_cons in Hnd as [Hnotin Hnd].
    apply elem_of_cons in H1 as [H1 | H1], H2 as [H2 | H2].
    + congruence.
    + inversion H1; subst. exfalso. apply Hnotin.
      apply list_elem_of_fmap. exists (x2, y0). auto.
    + inversion H2; subst. exfalso. apply Hnotin.
      apply list_elem_of_fmap. exists (x1, y0). auto.
    + now apply IH.
Qed.

Lemma opTableA_values_NoDup : NoDup ((map_to_list opTableA).*2).
Proof. apply (bool_decide_unpack _). vm_compute. exact I. Qed.

Lemma opTableS_values_NoDup : NoDup ((map_to_list opTableS).*2).
Proof. apply (bool_decide_unpack _). vm_compute. exact I. Qed.

(** Both byte-to-opcode tables are injective. *)
Lemma opTables_injective (b1 b2 : byte) (op : Op) :
  (opTableA !! b1 = Some op -> opTableA !! b2 = Some op -> b1 = b2) /\
  (opTableS !! b1 = Some op -> opTableS !! b2 = Some op -> b1 = b2).
Proof.
  split; intros H1 H2.
  - apply (NoDup_snd_inj (map_to_list opTableA) b1 b2 op
             opTableA_values_NoDup); now apply elem_of_map_to_list.
  - apply (NoDup_snd_inj (map_to_list opTableS) b1 b2 op
             opTableS_values_NoDup); now apply elem_of_map_to_list.
Qed.

(** What the loop of [init] builds from entries with pairwise distinct
    opcodes: the entry of an opcode is the byte listed with it, in
    whatever order the entries are visited. *)
Lemma reverseTable_lookup (entries : list (byte * Op)) (op : Op) (b : byte) :
  NoDup (entries.*2) ->
  reverseTable entries !! op = Some b <-> (b, op) ∈ entries.
Proof.
  unfold reverseTable.
  assert (G : forall acc : gmap Op byte,
    NoDup (entries.*2) ->
    foldl (fun reversed kv => <[snd kv := fst kv]> reversed) acc entries !! op
      = Some b
    <-> ((b, op) ∈ entries \/ (acc !! op = Some b /\ op ∉ entries.*2))).
  { induction entries as [|[k v] l IH]; intros acc Hnd; simpl.
    - split.
      + intros H. right. split; [exact H | apply not_elem_of_nil].
      + intros [H | [H _]]; [inversion H | exact H].
    - apply NoDup_cons in Hnd as [Hnotin Hnd].
      rewrite (IH _ Hnd). rewrite elem_of_cons. split.
      + intros [H | [H Hop]]; [tauto |].
        destruct (decide (v = op)) as [-> | Hne].
        * rewrite lookup_insert_eq in H. inversion H; subst. left. now left.
        * rewrite lookup_insert_ne in H by exact Hne. right. split; [exact H |].
          rewrite not_elem_of_cons. split; [congruence | exact Hop].
      + intros [[H | H] | [H Hop]].
        * inversion H; subst. right. split; [apply lookup_insert_eq | exact Hnotin].
        * now left.
        * apply not_elem_of_cons in Hop as [Hne Hop].
          right. split; [| exact Hop].
          rewrite lookup_insert_ne by congruence. exact H. }
  intros Hnd. rewrite (G ∅ Hnd). rewrite lookup_empty. split.
  - intros [H | [H _]]; [exact H | discriminate].
  - intros H. now left.
Qed.

(** The reversed tables invert the tables. *)
Lemma reversedTables_invert (op : Op) (b : byte) :
  (reversedTableA !! op = Some b <-> opTableA !! b = Some op) /\
  (reversedTableS !! op = Some b <-> opTableS !! b = Some op).
Proof.
  unfold reversedTableA, reversedTableS. split.
  - rewrite (reverseTable_lookup _ _ _ opTableA_values_NoDup).
    apply elem_of_map_to_list.
  - rewrite (reverseTable_lookup _ _ _ opTableS_values_NoDup).
    apply elem_of_map_to_list.
Qed.

(** Every opcode other than Itou has a byte in each table. *)
Lemma opTables_cover (op : Op) :
  op <> Itou ->
  (exists b, opTableA !! b = Some op) /\ (exists b, opTableS !! b = Some op).
Proof.
  intros Hne. split.
  - destruct (reversedTableA !! op) as [b|] eqn:E.
    + exists b. now apply reversedTables_invert.
    + destruct op; try (vm_compute in E; discriminate E). congruence.
  - destruct (reversedTableS !! op) as [b|] eqn:E.
    + exists b. now apply reversedTables_invert.
    + destruct op; try (vm_compute in E; discriminate E). congruence.
Qed.

(** C2 at its failing input. Each table holds 22 entries and none of them
    is for Itou: no byte is mapped to Itou in table A or in table S, the
    reversed tables have no entry for it, and [showOp] panics on it. *)
Theorem Itou_has_no_byte :
  size opTableA = 22%nat /\ size opTableS = 22%nat /\
  (forall b : byte, opTableA !! b <> Some Itou) /\
  (forall b : byte, opTableS !! b <> Some Itou) /\
  reversedTableA !! Itou = None /\
  reversedTableS !! Itou = None /\
  (forall m : Mode, fst (showOp m Itou tt) = Panic UnknownOp).
Proof.
  assert (HA : reversedTableA !! Itou = None) by (vm_compute; reflexivity).
  assert (HS : reversedTableS !! Itou = None) by (vm_compute; reflexivity).
  repeat split; try (vm_compute; reflexivity).
  - intros b Hb. apply reversedTables_invert in Hb. congruence.
  - intros b Hb. apply reversedTables_invert in Hb. congruence.
Qed.

End Lexer.

(** ** Package types: the bridge *)

Section Bridge.
Import types hostshape fieldrules programs.

(** C7. [ToValue] applies its rules in the order nil, marshal capability,
    basic kinds, structure: the nil interface converts to Nil; a non-nil
    value whose type implements Marshaler converts to what its
    MarshalWatson returns, whatever its kind; without that capability a
    value of basic kind converts to the Value of its payload, and any other
    value is converted by reflection on its structure. *)
Theorem ToValue_precedence (v : Host) :
  (isNilInterface v = true -> ToValue v = NewNilValue) /\
  (forall marshaler, Marshaler v = Some marshaler -> ToValue v = marshaler) /\
  (forall x, Marshaler v = None -> scalarOf v = Some x ->
             ToValue v = alloc (primitive x)) /\
  (isNilInterface v = false -> Marshaler v = None -> scalarOf v = None ->
   ToValue v = ToValueByReflection v).
Proof.
  repeat split.
  - destruct v; simpl; intros H; try discriminate H. reflexivity.
  - intros marshaler H. destruct v; simpl in H; try discriminate H;
      unfold ToValue, ToValueWith; simpl; now rewrite H.
  - intros x Hm Hx.
    destruct v; simpl in Hm, Hx; try discriminate Hx; inversion Hx; subst.
    + destruct x; reflexivity.
    + destruct x; reflexivity.
  - intros Hnil Hm Hx.
    destruct v; simpl in Hnil, Hm, Hx; try discriminate; subst; reflexivity.
Qed.

Lemma ToValue_precedence_witness :
  ToValue (Defined (mkRefl true false) (Some (NewIntValue 7))
                   (GoFloat TFloat64 0))
  = NewIntValue 7.
Proof.
  apply (proj1 (proj2 (ToValue_precedence
           (Defined (mkRefl true false) (Some (NewIntValue 7))
                    (GoFloat TFloat64 0))))).
  reflexivity.
Defined.

(** *** Field rules *)

(** Induction on host values that descends into the fields of records. *)
Lemma Host_fields_ind (P : Host -> Prop) :
  (forall v, (forall r mw fs, v <> StructOf r mw fs) -> P v) ->
  (forall r mw fs, Forall (fun fe : StructField * Host => P (snd fe)) fs ->
                   P (StructOf r mw fs)) ->
  forall v, P v.
Proof.
  intros Hother Hstruct. fix IH 1. intros v.
  destruct v as [| | | | |r mw fields | | |];
    try (apply Hother; intros; discriminate).
  apply Hstruct.
  induction fields as [|[sf e] l IHl]; constructor.
  - apply IH.
  - exact IHl.
Qed.

Lemma bind_ret_tt {S} (m : M S unit) s : bind m (fun _ => ret tt) s = m s.
Proof. unfold bind, ret. destruct (m s) as [[[]| | |] s']; reflexivity. Qed.

Lemma parseTag_f (field : StructField) : f (parseTag field) = field.
Proof.
  unfold parseTag. destruct (Tag field) as [s|]; [| reflexivity].
  destruct (splitComma s); reflexivity.
Qed.

(** [addFields] and the entries of the field rules, for any record. *)
Lemma addFields_writes (v : Host) :
  inlineRecords v = true ->
  forall (obj : mapref) (h : Heap),
    addFields obj v h = writeEntries obj (promoted v) h.
Proof.
  induction v as [v Hv | r mw fs IH] using Host_fields_ind.
  - intros H. destruct v; simpl in H; try discriminate H.
    exfalso. eapply Hv. reflexivity.
  - intros Hrec obj. simpl in Hrec. simpl addFields. simpl promoted.
    unfold writeEntries.
    induction fs as [|[field elem] l IHl]; intros h.
    + reflexivity.
    + simpl in Hrec. apply andb_prop in Hrec as [Hfe Hl].
      apply Forall_cons in IH as [IHe IHrest].
      specialize (IHl IHrest Hl).
      cbn [forEach flat_map]. rewrite forEach_app.
      assert (Hstep : forall h0,
        addField ToValueByReflection (addFields obj) obj (field, elem) h0
        = forEach (fun kv : string * Host =>
                     do p <- elemToValue ToValueByReflection (snd kv);
                     mapStore obj (fst kv) p)%go
            (let t := parseTag (fst (field, elem)) in
             if bool_decide (name t = "-"%string) then []
             else if OmitEmpty t && IsZero (refl (snd (field, elem))) then []
             else if Inline t then promoted (snd (field, elem))
             else [(if bool_decide (name t = EmptyString)
                    then Name (fst (field, elem)) else name t,
                    snd (field, elem))]) h0).
      { intros h0. unfold addField, ShouldAlwaysOmit. cbn [fst snd] in *.
        destruct (bool_decide (name (parseTag field) = "-"%string));
          [reflexivity |].
        destruct (OmitEmpty (parseTag field) && IsZero (refl elem));
          [reflexivity |].
        destruct (Inline (parseTag field)).
        - apply (IHe Hfe).
        - cbn [forEach fst snd]. rewrite bind_ret_tt.
          unfold Key. now rewrite parseTag_f. }
      unfold bind at 1 2. rewrite Hstep.
      match goal with |- context [forEach ?w ?es h] =>
        destruct (forEach w es h) as [[u| | |] h1] end; auto.
Qed.



End Bridge.

(** ** The store: frames and deep copies *)

Section Store.
Import types store.

Lemma subOn_refl P Q h : subOn P Q h h.
Proof. split; auto. Qed.

Lemma subOn_trans P Q h1 h2 h3 :
  subOn P Q h1 h2 -> subOn P Q h2 h3 -> subOn P Q h1 h3.
Proof. intros [A1 B1] [A2 B2]. split; eauto. Qed.

Lemma subOn_weaken (P P' : addr -> Prop) (Q Q' : mapref -> Prop) h h' :
  (forall a, P' a -> P a) -> (forall m, Q' m -> Q m) ->
  subOn P Q h h' -> subOn P' Q' h h'.
Proof. intros HP HQ [A B]. split; eauto. Qed.

Lemma extends_subOn P Q h h' : extends h h' -> subOn P Q h h'.
Proof. apply subOn_weaken; auto. Qed.

Lemma extends_cells_length h h' :
  extends h h' -> (length (cells h) <= length (cells h'))%nat.
Proof.
  intros [A _].
  destruct (le_lt_dec (length (cells h)) (length (cells h'))) as [|Hlt]; [assumption |].
  destruct (lookup_lt_is_Some_2 (cells h) _ Hlt) as [v Hv].
  apply (A _ _ I) in Hv. apply lookup_lt_Some in Hv. lia.
Qed.

Lemma extends_maps_length h h' :
  extends h h' -> (length (maps h) <= length (maps h'))%nat.
Proof.
  intros [_ B].
  destruct (le_lt_dec (length (maps h)) (length (maps h'))) as [|Hlt]; [assumption |].
  destruct (lookup_lt_is_Some_2 (maps h) _ Hlt) as [v Hv].
  apply (B _ _ I) in Hv. apply lookup_lt_Some in Hv. lia.
Qed.

(** More fuel never hurts: a value of depth less than [n] has depth less
    than any larger bound. *)
Lemma finite_le n n' h p : (n <= n')%nat -> finite n h p -> finite n' h p.
Proof.
  revert n' p. induction n as [|n IH]; intros n' p Hle; [intros [] |].
  destruct n' as [|n']; [lia |]. simpl.
  destruct p as [a|]; [| tauto].
  destruct (cells h !! a) as [[z|z|x|s|m|l|b|]|]; auto.
  - intros (t & Ht & Hall). exists t. split; [exact Ht |].
    intros k q Hkq. apply IH; [lia |]. exact (Hall k q Hkq).
  - intros Hall. eapply Forall_impl; [exact Hall |].
    intros q. apply IH. lia.
Qed.

Lemma alloc_run v h :
  alloc v h = (Ok (Some (length (cells h))), mkHeap (cells h ++ [v]) (maps h)).
Proof. reflexivity. Qed.

Lemma alloc_extends v h : extends h (mkHeap (cells h ++ [v]) (maps h)).
Proof.
  split; simpl; intros; auto. now apply lookup_app_l_Some.
Qed.

Lemma newMap_extends h : extends h (mkHeap (cells h) (maps h ++ [∅])).
Proof.
  split; simpl; intros; auto. now apply lookup_app_l_Some.
Qed.

Lemma mapStore_run m k p h t :
  maps h !! m = Some t ->
  mapStore m k p h = (Ok tt, mkHeap (cells h) (<[m := <[k := p]> t]> (maps h))).
Proof. intros H. unfold mapStore. now rewrite H. Qed.

Lemma mapStore_subOn m t' h :
  subOn (fun _ => True) (fun x => x <> m) h (mkHeap (cells h) (<[m := t']> (maps h))).
Proof.
  split; simpl; intros; auto. rewrite list_lookup_insert_ne; auto.
Qed.

(** Frame: the comparison reads, on its right, only what lies in P and Q. *)
Lemma equalIn_frame n (P : addr -> Prop) (Q : mapref -> Prop) h1 h2 h2' :
  subOn P Q h2 h2' ->
  forall p1 p2, equalIn n P Q h1 p1 h2 p2 -> equalIn n P Q h1 p1 h2' p2.
Proof.
  intros [A B]. induction n as [|n IH]; intros p1 p2; simpl; [tauto |].
  destruct p1 as [a1|], p2 as [a2|]; try tauto.
  intros [HP H]. split; [exact HP |].
  destruct (cells h1 !! a1) as [v1|] eqn:E1; [| destruct H].
  destruct (cells h2 !! a2) as [v2|] eqn:E2;
    [| destruct v1; destruct H].
  rewrite (A _ _ HP E2).
  destruct v1, v2; try exact H.
  - destruct H as (HQ & t1 & t2 & M1 & M2 & Hk).
    split; [exact HQ |]. exists t1, t2. repeat split; auto.
    intros k. specialize (Hk k).
    destruct Hk; constructor; auto.
  - eapply Forall2_impl; [exact H |]. auto.
Qed.

Lemma equalIn_weaken n (P P' : addr -> Prop) (Q Q' : mapref -> Prop) h1 h2 :
  (forall a, P a -> P' a) -> (forall m, Q m -> Q' m) ->
  forall p1 p2, equalIn n P Q h1 p1 h2 p2 -> equalIn n P' Q' h1 p1 h2 p2.
Proof.
  intros HP HQ. induction n as [|n IH]; intros p1 p2; simpl; [tauto |].
  destruct p1 as [a1|], p2 as [a2|]; try tauto.
  intros [Ha H]. split; [auto |].
  destruct (cells h1 !! a1) as [v1|]; [| destruct H].
  destruct (cells h2 !! a2) as [v2|]; [| destruct v1; destruct H].
  destruct v1, v2; try exact H.
  - destruct H as (Hm & t1 & t2 & M1 & M2 & Hk).
    split; [auto |]. exists t1, t2. repeat split; auto.
    intros k. specialize (Hk k). destruct Hk; constructor; auto.
  - eapply Forall2_impl; [exact H |]. auto.
Qed.


Lemma subOn_cells_length (Q : mapref -> Prop) h h' :
  subOn (fun _ => True) Q h h' -> (length (cells h) <= length (cells h'))%nat.
Proof.
  intros [A _].
  destruct (le_lt_dec (length (cells h)) (length (cells h'))) as [|Hlt]; [assumption |].
  destruct (lookup_lt_is_Some_2 (cells h) _ Hlt) as [v Hv].
  apply (A _ _ I) in Hv. apply lookup_lt_Some in Hv. lia.
Qed.

Section CopyStep.

Variable n : nat.
Variable h0 : Heap.

(** What [DeepCopy n] is assumed to do, one level down. *)
Hypothesis IHn : forall h p,
  extends h0 h -> finite n h0 p ->
  exists c h', DeepCopy n p h = (Ok c, h') /\ extends h h' /\
               equalIn n (freshCell h) (freshMap h) h0 p h' c.

Lemma copy_array (l : list pointer) :
  forall h, extends h0 h -> Forall (finite n h0) l ->
  exists l' h1, mapEach (DeepCopy n) l h = (Ok l', h1) /\ extends h h1 /\
    Forall2 (fun q c => equalIn n (freshCell h) (freshMap h) h0 q h1 c) l l'.
Proof.
  induction l as [|q l IHl]; intros h Hext Hfin.
  - exists [], h. repeat split; auto. 
  - apply Forall_cons in Hfin as [Hq Hl].
    destruct (IHn h q Hext Hq) as (c & h1 & Hrun & Hext1 & Heq).
    destruct (IHl h1 (subOn_trans _ _ _ _ _ Hext Hext1) Hl)
      as (l' & h2 & Hrun2 & Hext2 & Hall).
    exists (c :: l'), h2. split; [| split].
    + simpl. rewrite (bind_Ok _ _ _ _ _ Hrun).
      rewrite (bind_Ok _ _ _ _ _ Hrun2). reflexivity.
    + eapply subOn_trans; eauto.
    + constructor.
      * eapply equalIn_frame; [| exact Heq]. now apply extends_subOn.
      * eapply Forall2_impl; [exact Hall |]. intros q' c'. 
        apply equalIn_weaken; unfold freshCell, freshMap; intros x Hx.
        -- pose proof (extends_cells_length _ _ Hext1). lia.
        -- pose proof (extends_maps_length _ _ Hext1). lia.
Qed.

Variable m' : mapref.
Hypothesis Hm' : freshMap h0 m'.

Let body : string * pointer -> M Heap unit :=
  fun kv => (do c <- DeepCopy n (snd kv); mapStore m' (fst kv) c)%go.

Lemma copy_entries (l : list (string * pointer)) :
  forall hs acc,
    NoDup (l.*1) -> Forall (fun kv => finite n h0 (snd kv)) l ->
    extends h0 hs -> maps hs !! m' = Some acc ->
    exists hf accf,
      forEach body l hs = (Ok tt, hf) /\
      subOn (fun _ => True) (fun x => x <> m') hs hf /\
      maps hf !! m' = Some accf /\
      (forall k, k ∉ l.*1 -> accf !! k = acc !! k) /\
      (forall k q, (k, q) ∈ l ->
         exists c, accf !! k = Some c /\
                   equalIn n (freshCell hs) (freshMap hs) h0 q hf c).
Proof.
  induction l as [|[k q] l IHl]; intros hs acc Hnd Hfin Hext Hacc.
  - exists hs, acc. repeat split; auto.
    intros k q H. inversion H.
  - simpl in Hnd. apply NoDup_cons in Hnd as [Hk Hnd].
    apply Forall_cons in Hfin as [Hq Hl]. simpl in Hq.
    destruct (IHn hs q Hext Hq) as (c & h1 & Hrun & Hext1 & Heq).
    assert (Hacc1 : maps h1 !! m' = Some acc) by (now apply Hext1).
    pose proof (mapStore_run m' k c h1 acc Hacc1) as Hstore.
    set (h2 := mkHeap (cells h1) (<[m' := <[k := c]> acc]> (maps h1))) in *.
    assert (Hlt1 : (m' < length (maps h1))%nat) by (eapply lookup_lt_Some; eauto).
    assert (Hlts : (m' < length (maps hs))%nat) by (eapply lookup_lt_Some; eauto).
    assert (Hext2 : extends h0 h2).
    { split; simpl; intros x v _ Hv.
      - apply Hext1; auto. apply Hext; auto.
      - rewrite list_lookup_insert_ne.
        + apply Hext1; auto. apply Hext; auto.
        + apply lookup_lt_Some in Hv. unfold freshMap in Hm'. lia. }
    assert (Hacc2 : maps h2 !! m' = Some (<[k := c]> acc)).
    { simpl. now apply list_lookup_insert_eq. }
    destruct (IHl h2 _ Hnd Hl Hext2 Hacc2)
      as (hf & accf & Hrunf & Hsub & Haccf & Hout & Hin).
    assert (Hsub12 : subOn (fun _ => True) (fun x => x <> m') h1 h2)
      by apply mapStore_subOn.
    exists hf, accf. split; [| split; [| split; [| split]]].
    + cbn [forEach]. unfold body at 1. cbn [fst snd].
      rewrite bind_assoc. rewrite (bind_Ok _ _ _ _ _ Hrun).
      rewrite (bind_Ok _ _ _ _ _ Hstore). exact Hrunf.
    + eapply subOn_trans; [apply extends_subOn; exact Hext1 |].
      eapply subOn_trans; [exact Hsub12 | exact Hsub].
    + exact Haccf.
    + intros k' Hk'. simpl in Hk'. apply not_elem_of_cons in Hk' as [Hne Hk'].
      rewrite (Hout k' Hk'). now apply lookup_insert_ne.
    + intros k' q' Hkq. apply elem_of_cons in Hkq as [Hkq | Hkq].
      * inversion Hkq; subst k' q'. exists c. split.
        -- rewrite (Hout k Hk). apply lookup_insert_eq.
        -- eapply equalIn_frame; [| exact Heq].
           apply subOn_weaken
             with (P := fun _ : addr => True) (Q := fun x : mapref => x <> m').
           ++ auto.
           ++ unfold freshMap. intros x Hx. lia.
           ++ eapply subOn_trans; [exact Hsub12 | exact Hsub].
      * destruct (Hin k' q' Hkq) as (c' & Hc' & Heq').
        exists c'. split; [exact Hc' |].
        revert Heq'. apply equalIn_weaken; unfold freshCell, freshMap;
          simpl; intros x Hx.
        -- pose proof (extends_cells_length _ _ Hext1). lia.
        -- rewrite length_insert in Hx.
           pose proof (extends_maps_length _ _ Hext1). lia.
Qed.

End CopyStep.

(** [DeepCopy] of a value of depth less than [n], run with fuel [n] in any
    store that keeps the value: it returns, it only adds to the store, and
    the result is equal to the original and made of newly allocated structs
    and tables only. *)
Lemma DeepCopy_equal (n : nat) :
  forall h0 h p,
    extends h0 h -> finite n h0 p ->
    exists c h', DeepCopy n p h = (Ok c, h') /\ extends h h' /\
                 equalIn n (freshCell h) (freshMap h) h0 p h' c.
Proof.
  induction n as [|n IHn]; intros h0 h p Hext Hfin; [destruct Hfin |].
  specialize (IHn h0).
  simpl in Hfin. destruct p as [a|]; [| destruct Hfin].
  destruct (cells h0 !! a) as [v|] eqn:Ev; [| destruct Hfin].
  assert (Ev' : cells h !! a = Some v) by (now apply Hext).
  assert (Hscalar : forall v0, v = v0 -> 
     match v0 with ObjectValue _ | ArrayValue _ => False | _ => True end ->
     exists c h', alloc v0 h = (Ok c, h') /\ extends h h' /\
                  equalIn (S n) (freshCell h) (freshMap h) h0 (Some a) h' c).
  { intros v0 <- Hv0. eexists _, _. split; [apply alloc_run |].
    split; [apply alloc_extends |].
    simpl. rewrite Ev. rewrite lookup_app_r by lia. rewrite Nat.sub_diag. simpl.
    split; [unfold freshCell; lia |].
    destruct v; try reflexivity; destruct Hv0. }
  cbn [DeepCopy]. rewrite (bind_Ok _ _ _ _ _ (load_some _ _ _ Ev')).
  destruct v as [z|z|x|s|m|l|b|]; try (apply Hscalar; [reflexivity | exact I]).
  - (* Object *)
    destruct Hfin as (t & Ht & Hall).
    assert (Ht' : maps h !! m = Some t) by (now apply Hext).
    assert (Hread : readMap m h = (Ok t, h)) by (unfold readMap; now rewrite Ht').
    rewrite (bind_Ok _ _ _ _ _ Hread).
    set (m' := length (maps h)).
    set (hs := mkHeap (cells h) (maps h ++ [∅])).
    assert (Hnew : newMap h = (Ok m', hs)) by reflexivity.
    rewrite (bind_Ok _ _ _ _ _ Hnew).
    assert (Hfresh : freshMap h0 m').
    { unfold freshMap, m'. now apply extends_maps_length. }
    assert (Hexts : extends h0 hs).
    { eapply subOn_trans; [exact Hext | apply newMap_extends]. }
    assert (Haccs : maps hs !! m' = Some (∅ : gmap string pointer)).
    { unfold hs, m'. simpl. rewrite lookup_app_r by lia.
      now rewrite Nat.sub_diag. }
    destruct (copy_entries n h0 IHn m' Hfresh (map_to_list t) hs ∅)
      as (hf & accf & Hrun & Hsub & Haccf & Hout & Hin); auto.
    { apply NoDup_fst_map_to_list. }
    { apply Forall_forall. intros [k q] Hkq. simpl.
      apply elem_of_map_to_list in Hkq. exact (Hall k q Hkq). }
    rewrite (bind_Ok _ _ _ _ _ Hrun).
    eexists _, _. split; [apply alloc_run |].
    assert (Hlen : (length (cells h) <= length (cells hf))%nat).
    { apply (subOn_cells_length _ hs hf Hsub). }
    split; [| simpl; rewrite Ev; rewrite lookup_app_r by lia;
              rewrite Nat.sub_diag; simpl; split; [exact Hlen | split]].
    + split; simpl; intros x v _ Hv.
      * apply lookup_app_l_Some. apply Hsub; auto.
      * apply Hsub.
        -- apply lookup_lt_Some in Hv. unfold m'. lia.
        -- simpl. now apply lookup_app_l_Some.
    + unfold freshMap, m'. lia.
    + exists t, accf. repeat split; auto.
      intros k. destruct (t !! k) as [q|] eqn:Ek.
      * destruct (Hin k q) as (c & Hc & Heq).
        { now apply elem_of_map_to_list. }
        rewrite Hc. constructor.
        eapply equalIn_frame; [apply extends_subOn, alloc_extends |].
        revert Heq. apply equalIn_weaken; unfold freshCell, freshMap, hs;
          simpl; intros x Hx; auto.
        rewrite length_app in Hx. simpl in Hx. lia.
      * rewrite Hout.
        -- rewrite lookup_empty. constructor.
        -- intros Hk. apply list_elem_of_fmap in Hk as ([k' q] & -> & Hkq).
           apply elem_of_map_to_list in Hkq. simpl in Ek. congruence.
  - (* Array *)
    destruct (copy_array n h0 IHn l h Hext Hfin) as (l' & h1 & Hrun & Hext1 & Hall).
    rewrite (bind_Ok _ _ _ _ _ Hrun).
    eexists _, _. split; [apply alloc_run |].
    split; [eapply subOn_trans; [exact Hext1 | apply alloc_extends] |].
    simpl. rewrite Ev. rewrite lookup_app_r by lia. rewrite Nat.sub_diag. simpl.
    split; [unfold freshCell; now apply extends_cells_length |].
    eapply Forall2_impl; [exact Hall |]. intros q c.
    apply equalIn_frame. apply extends_subOn, alloc_extends.
Qed.

End Store.

(** ** Package vm: Oadd *)

Section Oadd.
Import types vm store programs.

Lemma equalIn_fresh_ne n h p h' c :
  equalIn n (freshCell h) (freshMap h) h p h' c -> c <> p.
Proof.
  destruct n as [|n]; simpl; [tauto |].
  destruct p as [a1|], c as [a2|]; try tauto.
  intros [Hfresh H] Heq. inversion Heq; subst a2.
  destruct (cells h !! a1) as [v|] eqn:E; [| exact H].
  apply lookup_lt_Some in E. unfold freshCell in Hfresh. lia.
Qed.

(** C6. With a value v on top of the stack, a String k below it and an
    Object o below that, v being a value of nesting depth less than the
    fuel: Oadd succeeds, pops the three and pushes an Object holding the
    table of o; that table is the old one with the entry for string(k) set
    to a pointer c, replacing any entry k had and leaving the other keys as
    they were; c is a newly allocated struct, different from v, equal to
    what v was, and made of newly allocated structs and tables only; so
    in every later store that keeps what this Oadd allocated, whatever has
    been written to v or to anything else that existed before, c still
    equals what v was. *)
Theorem feedOadd_inserts_copy (fuel : nat) (h : Heap) (st : list pointer)
    (sp0 : Z) (pv : pointer) (ak ao : addr) (k : list byte) (m : mapref)
    (t : gmap string pointer) :
  2 <= sp0 ->
  st !! Z.to_nat sp0 = Some pv ->
  st !! Z.to_nat (sp0 - 1) = Some (Some ak) ->
  st !! Z.to_nat (sp0 - 2) = Some (Some ao) ->
  cells h !! ak = Some (StringValue k) ->
  cells h !! ao = Some (ObjectValue m) ->
  maps h !! m = Some t ->
  finite fuel h pv ->
  exists (c : pointer) (h' : Heap) (st' : list pointer) (top : addr),
    let key := string_of_list_byte k in
    let s' := mkState h' (mkVM st' (sp0 - 2)) in
    Feed fuel Oadd (mkState h (mkVM st sp0)) = (Ok tt, s') /\
    length st' = length st /\
    (forall i : nat, Z.of_nat i < sp0 - 2 -> st' !! i = st !! i) /\
    Top s' = (Ok (Some top), s') /\
    cells h' !! top = Some (ObjectValue m) /\
    maps h' !! m = Some (<[key := c]> t) /\
    (<[key := c]> t) !! key = Some c /\
    (forall k', k' <> key -> (<[key := c]> t) !! k' = t !! k') /\
    (forall a v, cells h !! a = Some v -> cells h' !! a = Some v) /\
    c <> pv /\
    equalIn fuel (freshCell h) (freshMap h) h pv h' c /\
    (forall h'', subOn (freshCell h) (freshMap h) h' h'' ->
                 equalIn fuel (freshCell h) (freshMap h) h pv h'' c).
Proof.
  intros Hsp Hv Hk Ho Hck Hco Hm Hfin.
  set (key := string_of_list_byte k).
  set (st1 := <[Z.to_nat sp0 := None]> st).
  set (st2 := <[Z.to_nat (sp0 - 1) := None]> st1).
  assert (Hk1 : st1 !! Z.to_nat (sp0 - 1) = Some (Some ak)).
  { unfold st1. rewrite list_lookup_insert_ne by lia. exact Hk. }
  assert (Ho2 : st2 !! Z.to_nat (sp0 - 2) = Some (Some ao)).
  { unfold st2, st1. rewrite !list_lookup_insert_ne by lia. exact Ho. }
  destruct (DeepCopy_equal fuel h h pv (subOn_refl _ _ h) Hfin)
    as (c & h1 & Hcopy & Hext & Heq).
  assert (Hm1 : maps h1 !! m = Some t) by (now apply Hext).
  set (h2 := mkHeap (cells h1) (<[m := <[key := c]> t]> (maps h1))).
  set (h' := mkHeap (cells h2 ++ [ObjectValue m]) (maps h2)).
  set (st' := <[Z.to_nat (sp0 - 2) := Some (length (cells h1))]> st2).
  assert (Hlt : (Z.to_nat (sp0 - 2) < length st2)%nat)
    by (eapply lookup_lt_Some; eauto).
  assert (Hframe : subOn (freshCell h) (freshMap h) h1 h').
  { split; simpl; intros x v Hx Hxv.
    - now apply lookup_app_l_Some.
    - rewrite list_lookup_insert_ne; [exact Hxv |].
      apply lookup_lt_Some in Hm. unfold freshMap in Hx. lia. }
  assert (Heq' : equalIn fuel (freshCell h) (freshMap h) h pv h' c).
  { eapply equalIn_frame; [exact Hframe | exact Heq]. }
  exists c, h', st', (length (cells h1)).
  split; [| split; [| split; [| split; [| split; [| split; [| split;
    [| split; [| split; [| split; [| split]]]]]]]]]].
  - unfold Feed, feedOadd.
    rewrite (bind_Ok _ _ _ _ _ (pop_some h st sp0 pv ltac:(lia) Hv)).
    fold st1.
    rewrite (bind_Ok _ _ _ _ _
               (popString_run h st1 (sp0 - 1) ak _ ltac:(lia) Hk1 Hck)).
    fold st2. replace (sp0 - 1 - 1) with (sp0 - 2) by lia.
    rewrite (bind_Ok _ _ _ _ _
               (popObject_run h st2 (sp0 - 2) ao _ ltac:(lia) Ho2 Hco)).
    unfold bind at 1. rewrite inHeap_run, Hcopy. cbn [fst snd].
    unfold bind at 1.
    rewrite inHeap_run, (mapStore_run m (string_of_list_byte k) c h1 t Hm1).
    cbn [fst snd]. fold key. fold h2.
    unfold pushObject, NewObjectValue.
    apply (push_alloc_after_pop h2 st2 (sp0 - 2) (ObjectValue m));
      [lia | exact Hlt].
  - unfold st', st2, st1. now rewrite !length_insert.
  - intros i Hi. unfold st', st2, st1.
    rewrite !list_lookup_insert_ne by lia. reflexivity.
  - apply Top_some; [lia |]. unfold st'. now apply list_lookup_insert_eq.
  - unfold h'. simpl. rewrite lookup_app_r by lia. now rewrite Nat.sub_diag.
  - unfold h'. simpl. apply list_lookup_insert_eq.
    eapply lookup_lt_Some; eauto.
  - apply lookup_insert_eq.
  - intros k' Hk'. apply lookup_insert_ne. congruence.
  - intros a v Hav. unfold h'. simpl. apply lookup_app_l_Some.
    now apply Hext.
  - eapply equalIn_fresh_ne; eauto.
  - exact Heq'.
  - intros h'' Hsub. eapply equalIn_frame; [exact Hsub | exact Heq'].
Qed.

Lemma feedOadd_inserts_copy_witness :
  exists (c : pointer) (h' : Heap) (st' : list pointer),
    Feed 2 Oadd oaddState = (Ok tt, mkState h' (mkVM st' 0)) /\
    maps h' !! 0%nat = Some (<[string_of_list_byte [x01] := c]> ∅) /\
    c <> Some 8%nat.
Proof.
  destruct (feedOadd_inserts_copy 2 (heap oaddState) (stack (machine oaddState))
              2 (Some 8%nat) 4%nat 0%nat [x01] 0%nat ∅)
    as (c & h' & st' & top & HF & _ & _ & _ & _ & Hm & _ & _ & _ & Hne & _).
  - lia.
  - reflexivity.
  - reflexivity.
  - reflexivity.
  - reflexivity.
  - reflexivity.
  - reflexivity.
  - simpl. constructor; [simpl; exact I | constructor].
  - exists c, h', st'. split; [exact HF | split; [exact Hm | exact Hne]].
Defined.

End Oadd.

(** ** Package vm: what Feed never does *)

Section Safety.
Import types vm safety.

Lemma grows_refl h : grows h h.
Proof. split; lia. Qed.

Lemma grows_trans h1 h2 h3 : grows h1 h2 -> grows h2 h3 -> grows h1 h3.
Proof. intros [A B] [A' B']. split; lia. Qed.

Lemma validPtr_grows h h' p : grows h h' -> validPtr h p -> validPtr h' p.
Proof. intros [A _] (a & -> & Ha). exists a. split; [reflexivity | lia]. Qed.

Lemma closedValue_grows h h' v :
  grows h h' -> closedValue h v -> closedValue h' v.
Proof.
  intros G. destruct v; simpl; auto.
  - destruct G. lia.
  - intros H. eapply Forall_impl; [exact H |].
    intros q. now apply validPtr_grows.
Qed.

Lemma closed_alloc h v :
  closed h -> closedValue h v -> closed (mkHeap (cells h ++ [v]) (maps h)).
Proof.
  intros [Hc Hm] Hv.
  assert (G : grows h (mkHeap (cells h ++ [v]) (maps h))).
  { unfold grows; simpl; rewrite ?length_app, ?length_insert; simpl; lia. }
  split; simpl.
  - apply Forall_app. split.
    + eapply Forall_impl; [exact Hc |]. intros x. now apply closedValue_grows.
    + constructor; [| constructor]. now apply (closedValue_grows h).
  - eapply Forall_impl; [exact Hm |]. intros t Ht k q Hkq.
    apply (validPtr_grows h); auto. exact (Ht k q Hkq).
Qed.

Lemma closed_newMap h : closed h -> closed (mkHeap (cells h) (maps h ++ [∅])).
Proof.
  intros [Hc Hm].
  assert (G : grows h (mkHeap (cells h) (maps h ++ [∅]))).
  { unfold grows; simpl; rewrite ?length_app, ?length_insert; simpl; lia. }
  split; simpl.
  - eapply Forall_impl; [exact Hc |]. intros x. now apply closedValue_grows.
  - apply Forall_app. split.
    + eapply Forall_impl; [exact Hm |]. intros t Ht k q Hkq.
      apply (validPtr_grows h); auto. exact (Ht k q Hkq).
    + constructor; [| constructor]. intros k q Hkq.
      rewrite lookup_empty in Hkq. discriminate.
Qed.

Lemma closed_mapStore h m t k p :
  closed h -> maps h !! m = Some t -> validPtr h p ->
  closed (mkHeap (cells h) (<[m := <[k := p]> t]> (maps h))).
Proof.
  intros [Hc Hm] Ht Hp.
  assert (G : grows h (mkHeap (cells h) (<[m := <[k := p]> t]> (maps h)))).
  { unfold grows; simpl; rewrite ?length_app, ?length_insert; simpl; lia. }
  split; simpl.
  - eapply Forall_impl; [exact Hc |]. intros x. now apply closedValue_grows.
  - apply Forall_insert.
    + eapply Forall_impl; [exact Hm |]. intros t' Ht' k' q Hkq.
      apply (validPtr_grows h); auto. exact (Ht' k' q Hkq).
    + intros k' q Hkq. apply (validPtr_grows h); auto.
      destruct (decide (k = k')) as [<- | Hne].
      * rewrite lookup_insert_eq in Hkq. inversion Hkq; subst. exact Hp.
      * rewrite lookup_insert_ne in Hkq by exact Hne.
        rewrite Forall_lookup in Hm. exact (Hm m t Ht k' q Hkq).
Qed.

Lemma inHeap_run' {A} (m : M Heap A) s :
  inHeap m s = (fst (m (heap s)), mkState (snd (m (heap s))) (machine s)).
Proof. unfold inHeap. destruct (m (heap s)); reflexivity. Qed.

(** *** Computations on the store *)

Lemma hsafe_bind {A B} (m : M Heap A) (k : A -> M Heap B) Q R h :
  hsafe m Q h ->
  (forall a h', closed h' -> grows h h' -> Q a h' -> hsafe (k a) R h') ->
  hsafe (bind m k) R h.
Proof.
  unfold hsafe, bind. destruct (m h) as [[a| e | p |] h1]; simpl.
  - intros (C1 & G1 & _ & HQ) Hk.
    destruct (Hk a h1 C1 G1 HQ) as (C2 & G2 & B2 & HR).
    split; [exact C2 | split; [| split; [exact B2 | exact HR]]].
    eapply grows_trans; eauto.
  - intros (C1 & G1 & B1 & _) _. auto.
  - intros (C1 & G1 & B1 & _) _. auto.
  - intros (C1 & G1 & B1 & _) _. auto.
Qed.

Lemma hsafe_weaken {A} (m : M Heap A) (Q Q' : A -> Heap -> Prop) h :
  hsafe m Q h -> (forall a h', Q a h' -> Q' a h') -> hsafe m Q' h.
Proof.
  unfold hsafe. intros (C1 & G1 & B1 & HQ) Himp.
  split; [exact C1 | split; [exact G1 | split; [exact B1 |]]].
  destruct (fst (m h)); auto.
Qed.

Lemma hsafe_ret {A} (a : A) (Q : A -> Heap -> Prop) h :
  closed h -> Q a h -> hsafe (ret a) Q h.
Proof.
  intros Hc HQ. unfold hsafe, ret. simpl.
  split; [exact Hc | split; [apply grows_refl | split; [exact I | exact HQ]]].
Qed.

Lemma hsafe_load h p :
  closed h -> validPtr h p ->
  hsafe (load p) (fun v h' => h' = h /\ closedValue h v) h.
Proof.
  intros Hc (a & -> & Ha).
  destruct (lookup_lt_is_Some_2 (cells h) a Ha) as [v Hv].
  unfold hsafe. rewrite (load_some _ _ _ Hv). simpl.
  split; [exact Hc | split; [apply grows_refl | split; [exact I |]]].
  split; [reflexivity |].
  destruct Hc as [Hc _]. rewrite Forall_lookup in Hc. exact (Hc a v Hv).
Qed.

Lemma hsafe_alloc h v :
  closed h -> closedValue h v ->
  hsafe (alloc v) (fun p h' => validPtr h' p) h.
Proof.
  intros Hc Hv. unfold hsafe, alloc. simpl.
  split; [now apply closed_alloc |].
  split; [unfold grows; simpl; rewrite ?length_app, ?length_insert; simpl; lia |].
  split; [exact I |].
  exists (length (cells h)). split; [reflexivity |].
  simpl. rewrite length_app. simpl. lia.
Qed.

Lemma hsafe_newMap h :
  closed h -> hsafe newMap (fun m h' => (m < length (maps h'))%nat) h.
Proof.
  intros Hc. unfold hsafe, newMap. simpl.
  split; [now apply closed_newMap |].
  split; [unfold grows; simpl; rewrite ?length_app, ?length_insert; simpl; lia |].
  split; [exact I |]. rewrite length_app. simpl. lia.
Qed.

Lemma readMap_run (m : mapref) h t :
  maps h !! m = Some t -> readMap m h = (Ok t, h).
Proof. intros H. unfold readMap. now rewrite H. Qed.

Lemma hsafe_readMap h m :
  closed h -> (m < length (maps h))%nat ->
  hsafe (readMap m)
        (fun t h' => h' = h /\ map_Forall (fun _ q => validPtr h q) t) h.
Proof.
  intros Hc Hm.
  destruct (lookup_lt_is_Some_2 (maps h) m Hm) as [t Ht].
  unfold hsafe. rewrite (readMap_run m h t Ht). simpl.
  split; [exact Hc | split; [apply grows_refl | split; [exact I |]]].
  split; [reflexivity |].
  destruct Hc as [_ Hc]. rewrite Forall_lookup in Hc. exact (Hc m t Ht).
Qed.

Lemma hsafe_mapStore h m k p :
  closed h -> (m < length (maps h))%nat -> validPtr h p ->
  hsafe (mapStore m k p) (fun _ _ => True) h.
Proof.
  intros Hc Hm Hp.
  destruct (lookup_lt_is_Some_2 (maps h) m Hm) as [t Ht].
  unfold hsafe. rewrite (mapStore_run m k p h t Ht). simpl.
  split; [now apply closed_mapStore |].
  split; [unfold grows; simpl; rewrite ?length_app, ?length_insert; simpl; lia |].
  split; exact I.
Qed.


Lemma hsafe_diverge {A} (Q : A -> Heap -> Prop) h :
  closed h -> hsafe diverge Q h.
Proof.
  intros Hc. unfold hsafe, diverge. simpl.
  split; [exact Hc | split; [apply grows_refl | split; exact I]].
Qed.

Lemma hsafe_forEach {X} (body : X -> M Heap unit) (I : Heap -> X -> Prop)
    (l : list X) :
  (forall h h' x, grows h h' -> I h x -> I h' x) ->
  (forall h x, closed h -> I h x -> hsafe (body x) (fun _ _ => True) h) ->
  forall h, closed h -> Forall (I h) l ->
            hsafe (forEach body l) (fun _ _ => True) h.
Proof.
  intros Hmono Hbody. induction l as [|x l IH]; intros h Hc Hall.
  - now apply hsafe_ret.
  - apply Forall_cons in Hall as [Hx Hl]. cbn [forEach].
    eapply hsafe_bind; [apply Hbody; assumption |].
    intros _ h' Hc' G _. apply IH; [exact Hc' |].
    eapply Forall_impl; [exact Hl |]. intros y. now apply Hmono.
Qed.

Lemma hsafe_mapEach {X Y} (f : X -> M Heap Y) (I : Heap -> X -> Prop)
    (J : Heap -> Y -> Prop) (l : list X) :
  (forall h h' x, grows h h' -> I h x -> I h' x) ->
  (forall h h' y, grows h h' -> J h y -> J h' y) ->
  (forall h x, closed h -> I h x -> hsafe (f x) (fun y h' => J h' y) h) ->
  forall h, closed h -> Forall (I h) l ->
            hsafe (mapEach f l) (fun ys h' => Forall (J h') ys) h.
Proof.
  intros HI HJ Hf. induction l as [|x l IH]; intros h Hc Hall.
  - apply hsafe_ret; [exact Hc | constructor].
  - apply Forall_cons in Hall as [Hx Hl]. cbn [mapEach].
    eapply hsafe_bind; [apply Hf; assumption |].
    intros y h1 Hc1 G1 Hy. cbv beta in Hy.
    eapply hsafe_bind.
    + apply IH; [exact Hc1 |].
      eapply Forall_impl; [exact Hl |]. intros z. now apply HI.
    + intros ys h2 Hc2 G2 Hys. cbv beta in Hys.
      apply hsafe_ret; [exact Hc2 |]. constructor; [| exact Hys].
      now apply (HJ h1).
Qed.

(** [DeepCopy] in a closed store never dereferences nil: it returns a
    valid pointer or runs out of fuel, and leaves the store closed. *)
Lemma hsafe_DeepCopy (n : nat) :
  forall h p, closed h -> validPtr h p ->
              hsafe (DeepCopy n p) (fun c h' => validPtr h' c) h.
Proof.
  induction n as [|n IHn]; intros h p Hc Hp.
  - now apply hsafe_diverge.
  - cbn [DeepCopy]. eapply hsafe_bind; [now apply hsafe_load |].
    intros v h0 _ _ [-> Hv].
    destruct v as [z|z|x|s|m|l|b|]; try (now apply hsafe_alloc).
    + (* Object *)
      simpl in Hv.
      eapply hsafe_bind; [now apply hsafe_readMap |].
      intros t h0 _ _ [-> Ht].
      eapply hsafe_bind; [now apply hsafe_newMap |].
      intros m' h1 Hc1 G1 Hm'. cbv beta in Hm'.
      eapply hsafe_bind.
      * apply (hsafe_forEach _
                 (fun h0 (kv : string * pointer) =>
                    validPtr h0 (snd kv) /\ (m' < length (maps h0))%nat)).
        -- intros ha hb kv G [H1 H2]. split; [now apply (validPtr_grows ha) |].
           destruct G. lia.
        -- intros ha kv Hca [H1 H2].
           eapply hsafe_bind; [now apply IHn |].
           intros c hb Hcb Gb Hcv. cbv beta in Hcv.
           apply hsafe_mapStore; auto. destruct Gb. lia.
        -- exact Hc1.
        -- apply Forall_forall. intros [k q] Hkq. simpl.
           apply elem_of_map_to_list in Hkq. split; [| exact Hm'].
           apply (validPtr_grows h); auto. exact (Ht k q Hkq).
      * intros _ h2 Hc2 G2 _. apply hsafe_alloc; [exact Hc2 |].
        simpl. destruct G2. lia.
    + (* Array *)
      simpl in Hv.
      eapply hsafe_bind.
      * apply (hsafe_mapEach _ validPtr validPtr).
        -- intros ha hb q. apply validPtr_grows.
        -- intros ha hb q. apply validPtr_grows.
        -- intros ha q Hca Hq. now apply IHn.
        -- exact Hc.
        -- exact Hv.
      * intros l' h1 Hc1 G1 Hl'. now apply hsafe_alloc.
Qed.

(** *** Computations on the machine *)

Lemma wf_heap_change C s h' :
  wf C s -> grows (heap s) h' -> closed h' -> wf C (mkState h' (machine s)).
Proof.
  intros (Hlen & Hsp & Hbelow & Habove & _) G Hc.
  split; [exact Hlen | split; [exact Hsp | split; [| split; [exact Habove | exact Hc]]]].
  intros i Hi. destruct (Hbelow i Hi) as (p & Hp & Hv).
  exists p. split; [exact Hp |]. simpl. now apply (validPtr_grows (heap s)).
Qed.

Lemma safe_inHeap C {A} (m : M Heap A) (Q : A -> Heap -> Prop) s :
  wf C s -> hsafe m Q (heap s) ->
  safe C (inHeap m) (fun a s' => Q a (heap s')) s.
Proof.
  intros Hwf (Hc & G & B & HQ). unfold safe. rewrite inHeap_run'.
  cbn [fst snd heap].
  split; [now apply wf_heap_change | split; [exact B |]].
  destruct (fst (m (heap s))); auto.
Qed.


Lemma safe_bind C {A B} (m : M State A) (k : A -> M State B)
    (Q : A -> State -> Prop) (R : B -> State -> Prop) s :
  safe C m Q s ->
  (forall a s', wf C s' -> grows (heap s) (heap s') -> Q a s' ->
                safe C (k a) R s') ->
  safe C (bind m k) R s.
Proof.
  unfold safe, bind. destruct (m s) as [[a| e | p |] s1]; cbn [fst snd].
  - intros (W1 & _ & G1 & HQ) Hk.
    destruct (Hk a s1 W1 G1 HQ) as (W2 & B2 & HR).
    split; [exact W2 | split; [exact B2 |]].
    destruct (fst (k a s1)); auto.
    destruct HR as [G2 HR]. split; [| exact HR]. eapply grows_trans; eauto.
  - intros (W1 & B1 & _) _. auto.
  - intros (W1 & B1 & _) _. auto.
  - intros (W1 & B1 & _) _. auto.
Qed.

Lemma safe_weaken C {A} (m : M State A) (Q Q' : A -> State -> Prop) s :
  safe C m Q s -> (forall a s', Q a s' -> Q' a s') -> safe C m Q' s.
Proof.
  unfold safe. intros (W & B & HQ) Himp.
  split; [exact W | split; [exact B |]].
  destruct (fst (m s)); auto. destruct HQ. auto.
Qed.

Lemma safe_ret C {A} (a : A) (Q : A -> State -> Prop) s :
  wf C s -> Q a s -> safe C (ret a) Q s.
Proof.
  intros W HQ. unfold safe, ret. cbn [fst snd].
  split; [exact W | split; [exact I | split; [apply grows_refl | exact HQ]]].
Qed.

Lemma safe_fail C {A} (e : error) (Q : A -> State -> Prop) s :
  wf C s -> e <> EOF -> safe C (fail e) Q s.
Proof.
  intros W He. unfold safe, fail. cbn [fst snd].
  split; [exact W | split; [exact He | exact I]].
Qed.

Lemma safe_pop C s :
  wf C s -> safe C pop (fun p s' => validPtr (heap s') p) s.
Proof.
  destruct s as [h [st n]]. intros (Hlen & Hsp & Hbelow & Habove & Hc).
  simpl in *. unfold safe, pop. cbn [machine sp stack heap].
  destruct (Z.ltb_spec n 0) as [Hneg | Hpos]; cbn [fst snd].
  - split; [| split; [discriminate | exact I]].
    split; [exact Hlen | split; [exact Hsp | split; [exact Hbelow | split; assumption]]].
  - assert (Htop : Z.of_nat (Z.to_nat n) <= n) by lia.
    destruct (Hbelow (Z.to_nat n) Htop) as (p & Hp & Hv).
    rewrite Hp. cbn [fst snd heap].
    split; [| split; [exact I | split; [apply grows_refl | exact Hv]]].
    split; [| split; [| split; [| split]]]; cbn [machine sp stack heap].
    + now rewrite length_insert.
    + lia.
    + intros i Hi. rewrite list_lookup_insert_ne by lia. apply Hbelow. lia.
    + intros i Hi Hlt. destruct (decide (i = Z.to_nat n)) as [-> | Hne].
      * apply list_lookup_insert_eq. eapply lookup_lt_Some; exact Hp.
      * rewrite list_lookup_insert_ne by congruence. apply Habove; lia.
    + exact Hc.
Qed.

Lemma safe_push C p s :
  wf C s -> validPtr (heap s) p -> safe C (push p) (fun _ _ => True) s.
Proof.
  destruct s as [h [st n]]. intros (Hlen & Hsp & Hbelow & Habove & Hc) Hp.
  simpl in *. unfold safe, push. cbn [machine sp stack heap].
  destruct (Z.leb_spec (Z.of_nat (length st) - 1) n) as [Hfull | Hroom];
    cbn [fst snd].
  - split; [| split; [discriminate | exact I]].
    split; [exact Hlen | split; [exact Hsp | split; [exact Hbelow | split; assumption]]].
  - destruct (Z.ltb_spec (n + 1) 0) as [Hneg | Hpos]; [lia |].
    cbn [fst snd heap].
    split; [| split; [exact I | split; [apply grows_refl | exact I]]].
    split; [| split; [| split; [| split]]]; cbn [machine sp stack heap].
    + now rewrite length_insert.
    + lia.
    + intros i Hi. destruct (decide (i = Z.to_nat (n + 1))) as [-> | Hne].
      * exists p. split; [| exact Hp]. apply list_lookup_insert_eq. lia.
      * rewrite list_lookup_insert_ne by congruence. apply Hbelow. lia.
    + intros i Hi Hlt. rewrite list_lookup_insert_ne by lia. apply Habove; lia.
    + exact Hc.
Qed.

(** The pop and the load that start every typed pop. *)
Lemma safe_pop_load C {A} (k : Value -> M State A) (Q : A -> State -> Prop) s :
  wf C s ->
  (forall x s', wf C s' -> closedValue (heap s') x -> safe C (k x) Q s') ->
  safe C (do v <- pop; do x <- inHeap (load v); k x)%go Q s.
Proof.
  intros W Hk.
  eapply safe_bind; [now apply safe_pop |].
  intros v s1 W1 G1 Hv. cbv beta in Hv.
  eapply safe_bind.
  - apply safe_inHeap; [exact W1 |]. apply hsafe_load; [apply W1 | exact Hv].
  - intros x s2 W2 G2 [_ Hx]. apply Hk; [exact W2 |].
    eapply closedValue_grows; [exact G2 | exact Hx].
Qed.

Lemma safe_typed_pops C s :
  wf C s ->
  safe C popInt (fun _ _ => True) s /\
  safe C popFloat (fun _ _ => True) s /\
  safe C popString (fun _ _ => True) s /\
  safe C popObject (fun m s' => (m < length (maps (heap s')))%nat) s /\
  safe C popArray (fun l s' => Forall (validPtr (heap s')) l) s /\
  safe C popBool (fun _ _ => True) s.
Proof.
  intros W.
  repeat split_and; apply safe_pop_load; try exact W;
    intros x s' W' Hx; destruct x;
    try (apply safe_fail; [exact W' | discriminate]);
    (apply safe_ret; [exact W' | try exact I; exact Hx]).
Qed.

Lemma safe_push_new C v s :
  wf C s -> closedValue (heap s) v ->
  safe C (do p <- inHeap (alloc v); push p)%go (fun _ _ => True) s.
Proof.
  intros W Hv. eapply safe_bind.
  - apply safe_inHeap; [exact W |]. apply hsafe_alloc; [apply W | exact Hv].
  - intros p s1 W1 _ Hp. now apply safe_push.
Qed.

Lemma safe_shift C (shift : Z -> Z -> M State Z) a b s :
  shift = shl64 \/ shift = shr64 ->
  wf C s -> safe C (shift a b) (fun _ _ => True) s.
Proof.
  intros [-> | ->] W; unfold shl64, shr64; destruct (b <? 0);
    try (now apply safe_ret);
    unfold safe, throw; cbn [fst snd];
    (split; [exact W | split; [reflexivity | exact I]]).
Qed.

Lemma Feed_is_safe C fuel op s :
  wf C s -> safe C (Feed fuel op) (fun _ _ => True) s.
Proof.
  intros W.
  assert (Hpush : forall v s', wf C s' -> closedValue (heap s') v ->
            safe C (do p <- inHeap (alloc v); push p)%go (fun _ _ => True) s')
    by (intros; now apply safe_push_new).
  assert (HpopI : forall s' {B} (k : Z -> M State B) Q,
            wf C s' -> (forall z s'', wf C s'' -> safe C (k z) Q s'') ->
            safe C (bind popInt k) Q s').
  { intros s' B k Q W' Hk. eapply safe_bind; [apply safe_typed_pops, W' |].
    intros z s'' W'' _ _. now apply Hk. }
  destruct op; unfold Feed.
  - apply Hpush; [exact W | exact I].
  - apply HpopI; [exact W |]. intros z s' W'. apply Hpush; [exact W' | exact I].
  - apply HpopI; [exact W |]. intros z s' W'. apply Hpush; [exact W' | exact I].
  - apply HpopI; [exact W |]. intros b s1 W1.
    apply HpopI; [exact W1 |]. intros a s2 W2. apply Hpush; [exact W2 | exact I].
  - apply HpopI; [exact W |]. intros z s' W'. apply Hpush; [exact W' | exact I].
  - apply HpopI; [exact W |]. intros b s1 W1.
    apply HpopI; [exact W1 |]. intros a s2 W2.
    destruct (0 <=? b).
    + eapply safe_bind; [apply safe_shift; [now left | exact W2] |].
      intros r s3 W3 _ _. apply Hpush; [exact W3 | exact I].
    + eapply safe_bind; [apply safe_shift; [now right | exact W2] |].
      intros r s3 W3 _ _. apply Hpush; [exact W3 | exact I].
  - apply HpopI; [exact W |]. intros z s' W'. apply Hpush; [exact W' | exact I].
  - apply HpopI; [exact W |]. intros z s' W'. apply Hpush; [exact W' | exact I].
  - apply Hpush; [exact W | exact I].
  - apply Hpush; [exact W | exact I].
  - eapply safe_bind; [apply safe_typed_pops, W |].
    intros x s' W' _ _. apply Hpush; [exact W' | exact I].
  - apply Hpush; [exact W | exact I].
  - apply HpopI; [exact W |]. intros n s1 W1.
    eapply safe_bind; [apply safe_typed_pops, W1 |].
    intros b s2 W2 _ _. apply Hpush; [exact W2 | exact I].
  - (* Onew *)
    eapply safe_bind.
    + apply safe_inHeap; [exact W |]. apply hsafe_newMap, W.
    + intros m s1 W1 _ Hm. apply Hpush; [exact W1 | exact Hm].
  - (* Oadd *)
    eapply safe_bind; [now apply safe_pop |].
    intros v s1 W1 G1 Hv. cbv beta in Hv.
    eapply safe_bind; [apply safe_typed_pops, W1 |].
    intros k s2 W2 G2 _.
    eapply safe_bind; [apply safe_typed_pops, W2 |].
    intros o s3 W3 G3 Ho. cbv beta in Ho.
    eapply safe_bind.
    { apply safe_inHeap; [exact W3 |]. apply hsafe_DeepCopy; [apply W3 |].
      eapply validPtr_grows; [| exact Hv]. eapply grows_trans; eauto. }
    intros c s4 W4 G4 Hc. cbv beta in Hc.
    eapply safe_bind.
    { apply safe_inHeap; [exact W4 |].
      apply hsafe_mapStore; [apply W4 | destruct G4; lia | exact Hc]. }
    intros _ s5 W5 G5 _. apply Hpush; [exact W5 |].
    simpl. destruct G4, G5. lia.
  - apply Hpush; [exact W | constructor].
  - (* Aadd *)
    eapply safe_bind; [now apply safe_pop |].
    intros v s1 W1 G1 Hv. cbv beta in Hv.
    eapply safe_bind; [apply safe_typed_pops, W1 |].
    intros a s2 W2 G2 Ha. cbv beta in Ha.
    eapply safe_bind.
    { apply safe_inHeap; [exact W2 |]. apply hsafe_DeepCopy; [apply W2 |].
      eapply validPtr_grows; [| exact Hv]. exact G2. }
    intros c s3 W3 G3 Hc. cbv beta in Hc.
    apply Hpush; [exact W3 |]. simpl. apply Forall_app. split.
    + eapply Forall_impl; [exact Ha |]. intros q. now apply validPtr_grows.
    + constructor; [exact Hc | constructor].
  - apply Hpush; [exact W | exact I].
  - eapply safe_bind; [apply safe_typed_pops, W |].
    intros x s' W' _ _. apply Hpush; [exact W' | exact I].
  - apply Hpush; [exact W | exact I].
  - (* Gdup *)
    eapply safe_bind; [now apply safe_pop |].
    intros v s1 W1 G1 Hv. cbv beta in Hv.
    eapply safe_bind; [now apply safe_push |].
    intros _ s2 W2 G2 _.
    eapply safe_bind.
    { apply safe_inHeap; [exact W2 |]. apply hsafe_DeepCopy; [apply W2 |].
      eapply validPtr_grows; [| exact Hv]. exact G2. }
    intros c s3 W3 G3 Hc. now apply safe_push.
  - (* Gpop *)
    eapply safe_bind; [now apply safe_pop |].
    intros v s1 W1 _ _. now apply safe_ret.
  - (* Gswp *)
    eapply safe_bind; [now apply safe_pop |].
    intros a s1 W1 G1 Ha. cbv beta in Ha.
    eapply safe_bind; [now apply safe_pop |].
    intros b s2 W2 G2 Hb. cbv beta in Hb.
    eapply safe_bind.
    { apply safe_push; [exact W2 |]. eapply validPtr_grows; [| exact Ha]. exact G2. }
    intros _ s3 W3 G3 _. apply safe_push; [exact W3 |].
    eapply validPtr_grows; [| exact Hb]. exact G3.
Qed.

Lemma NewVM_wf (C : nat) : wf C (mkState emptyHeap (NewVM C)).
Proof.
  unfold wf, NewVM. cbn [machine stack sp heap].
  split; [apply length_replicate |].
  split; [lia |].
  split; [intros i Hi; lia |].
  split.
  - intros i _ Hlt. now apply lookup_replicate_2.
  - split; constructor.
Qed.

(** X1. Whatever opcode is fed to a well-formed machine of capacity C, the
    stack keeps its length C, sp stays within -1..C-1, the slots up to sp
    hold allocated values, the slots above sp are nil, the store has no
    dangling reference, and the outcome is a normal return, an error of
    package vm, the panic of a negative shift count or exhausted fuel:
    never an index out of range or a nil dereference. *)
Theorem Feed_keeps_wf (C fuel : nat) (op : Op) (s : State) :
  wf C s ->
  wf C (snd (Feed fuel op s)) /\ benign (fst (Feed fuel op s)).
Proof.
  intros W. destruct (Feed_is_safe C fuel op s W) as (W' & B & _). auto.
Qed.

(** X2. A new machine is well-formed, and it stays well-formed, with a
    benign outcome, whatever opcode sequence [FeedMulti] runs on it. *)
Theorem FeedMulti_from_NewVM (C fuel : nat) (ops : list Op) :
  let r := FeedMulti fuel ops (mkState emptyHeap (NewVM C)) in
  wf C (snd r) /\ benign (fst r).
Proof.
  cbv zeta.
  assert (G : forall s, wf C s ->
            safe C (FeedMulti fuel ops) (fun _ _ => True) s).
  { unfold FeedMulti. induction ops as [|op ops IH]; intros s W.
    - now apply safe_ret.
    - cbn [forEach]. eapply safe_bind; [now apply Feed_is_safe |].
      intros _ s' W' _ _. now apply IH. }
  destruct (G _ (NewVM_wf C)) as (W & B & _). auto.
Qed.

End Safety.
